(** * OpenSBI FIFO (lib/sbi/sbi_fifo.c): a shallow embedding and its properties

    The queue is a fixed-capacity ring of fixed-width entries kept in a
    caller-supplied byte region.  The C functions are embedded one for one:
    the 16-bit fields of [struct sbi_fifo] are integers with their wrap-around
    written out, the backing region is a list of bytes, an absent (NULL)
    pointer is [None].  The spin lock serialises the operations; here every
    operation is one atomic transition, which is what the lock provides, and
    the lock word itself is not part of the state.  The region of the queue,
    the entry the caller passes in and the buffer it gets an entry back in
    are separate regions; the alignment of addresses is not modelled, and a
    native access reads and writes its bytes in little-endian order. *)

From Stdlib Require Import ZArith Lia Bool.
From Stdlib Require Import Strings.Byte.
From stdpp Require Import base list.

Local Open Scope Z_scope.

(** ** Machine integers *)

(** [u16] and [u32] are the conversions to the unsigned C types, [s32] the
    one to [int]. *)
Definition u16 (z : Z) : Z := z mod 2 ^ 16.
Definition u32 (z : Z) : Z := z mod 2 ^ 32.
Definition s32 (z : Z) : Z := (z + 2 ^ 31) mod 2 ^ 32 - 2 ^ 31.

(** The target word size, [__riscv_xlen]; [size_t] has that many bits. *)
Inductive riscv_xlen : Set := RV32 | RV64.

Definition xlen_bits (xl : riscv_xlen) : Z :=
  match xl with RV32 => 32 | RV64 => 64 end.

Definition size_t (xl : riscv_xlen) (z : Z) : Z := z mod 2 ^ xlen_bits xl.

(** ** Bytes and memory *)

Definition byte_to_Z (b : byte) : Z := Z.of_N (Byte.to_N b).

Definition byte_of_Z (z : Z) : byte :=
  match Byte.of_N (Z.to_N (z mod 256)) with
  | Some b => b
  | None => x00
  end.

(** A memory region is the list of its bytes; a pointer into it is the
    region together with a byte offset. *)
Definition mem : Type := list byte.

(** Little-endian value of a run of bytes (RISC-V is little-endian), and the
    [n] low bytes of a value. *)
Fixpoint le_combine (bs : list byte) : Z :=
  match bs with
  | [] => 0
  | b :: bs' => byte_to_Z b + 256 * le_combine bs'
  end.

Fixpoint le_split (n : nat) (v : Z) : list byte :=
  match n with
  | O => []
  | S n' => byte_of_Z (v mod 256) :: le_split n' (v / 256)
  end.

(** [*(uW * )(m + off)] as an rvalue and as an lvalue, [W = 8 * w]. *)
Definition load (w : nat) (m : mem) (off : nat) : Z :=
  le_combine (take w (drop off m)).

Definition store (w : nat) (m : mem) (off : nat) (v : Z) : mem :=
  list_inserts off (le_split w v) m.

(** Modelled from the spec: [sbi_memcpy] and [sbi_memset] live in
    sbi_string.c, which is not among the sources; the spec calls them the
    raw byte-for-byte copy and the fill.  [sbi_memcpy dst doff src soff n]
    is [sbi_memcpy(dst + doff, src + soff, n)] and returns the new contents
    of [dst]. *)
Definition sbi_memcpy (dst : mem) (doff : nat) (src : mem) (soff : nat)
    (n : nat) : mem :=
  list_inserts doff (take n (drop soff src)) dst.

Definition sbi_memset (dst : mem) (doff : nat) (c : Z) (n : nat) : mem :=
  list_inserts doff (replicate n (byte_of_Z c)) dst.

(** ** The queue *)

(** [struct sbi_fifo] without its lock.  [queue] holds the contents of the
    region [fifo->queue] points to. *)
Record sbi_fifo : Type := mk_fifo {
  queue : mem;
  num_entries : Z;
  entry_size : Z;
  avail : Z;
  tail : Z
}.

Definition set_queue (f : sbi_fifo) (q : mem) : sbi_fifo :=
  mk_fifo q (num_entries f) (entry_size f) (avail f) (tail f).

Definition set_avail (f : sbi_fifo) (a : Z) : sbi_fifo :=
  mk_fifo (queue f) (num_entries f) (entry_size f) a (tail f).

Definition set_tail (f : sbi_fifo) (t : Z) : sbi_fifo :=
  mk_fifo (queue f) (num_entries f) (entry_size f) (avail f) t.

(** The slot with index [i], as a byte offset into the region and as the
    bytes stored there. *)
Definition slot_offset (f : sbi_fifo) (i : Z) : nat :=
  Z.to_nat (i * entry_size f).

Definition slot (f : sbi_fifo) (i : Z) : mem :=
  take (Z.to_nat (entry_size f)) (drop (slot_offset f i) (queue f)).

(** The occupied slots, oldest first, and what they hold: the run of
    [avail] slots that starts at [tail] and wraps at [num_entries]. *)
Definition ring_index (f : sbi_fifo) (k : nat) : Z :=
  (tail f + Z.of_nat k) mod num_entries f.

Definition occupied (f : sbi_fifo) : list Z :=
  map (ring_index f) (seq 0 (Z.to_nat (avail f))).

Definition contents (f : sbi_fifo) : list mem := map (slot f) (occupied f).

Section Fifo.

(** The word size of the target and the constants of sbi_error.h and
    sbi_fifo.h, headers that are not among the sources: the development
    holds for every value they may have. *)
Variable xl : riscv_xlen.
Variables SBI_EINVAL SBI_ENOSPC SBI_ENOENT : Z.
Variables SBI_FIFO_SKIP SBI_FIFO_UPDATED SBI_FIFO_UNCHANGED : Z.

(** The type of what the [in] pointer of [sbi_fifo_inplace_update] points
    to. *)
Variable ctx : Type.

(** [sbi_fifo_init]: the result is the initialised [*fifo]. *)
Definition sbi_fifo_init (queue_mem : mem) (entries entry_size : Z)
    : sbi_fifo :=
  let fifo := mk_fifo queue_mem entries entry_size 0 0 in
  set_queue fifo
    (sbi_memset (queue fifo) 0 0
       (Z.to_nat (size_t xl (size_t xl entries * entry_size)))).

Definition __sbi_fifo_is_full (fifo : sbi_fifo) : bool :=
  if avail fifo =? num_entries fifo then true else false.

Definition sbi_fifo_avail (fifo : option sbi_fifo) : Z :=
  match fifo with
  | None => 0
  | Some f => avail f
  end.

Definition int_of_bool (b : bool) : Z := if b then 1 else 0.

Definition sbi_fifo_is_full (fifo : option sbi_fifo) : Z :=
  match fifo with
  | None => SBI_EINVAL
  | Some f => int_of_bool (__sbi_fifo_is_full f)
  end.

(** The slot the next entry goes to: the first statements of
    [__sbi_fifo_enqueue]. *)
Definition enqueue_head (fifo : sbi_fifo) : Z :=
  let head := u32 (u32 (tail fifo) + avail fifo) in
  if head >=? num_entries fifo then u32 (head - num_entries fifo) else head.

Definition __sbi_fifo_enqueue (fifo : sbi_fifo) (data : mem) : sbi_fifo :=
  let head := enqueue_head fifo in
  let off := Z.to_nat (u32 (head * entry_size fifo)) in
  let q :=
    if entry_size fifo =? 1 then store 1 (queue fifo) off (load 1 data 0)
    else if entry_size fifo =? 2 then store 2 (queue fifo) off (load 2 data 0)
    else if entry_size fifo =? 4 then store 4 (queue fifo) off (load 4 data 0)
    else if (entry_size fifo =? 8) && (32 <? xlen_bits xl)
      then store 8 (queue fifo) off (load 8 data 0)
    else sbi_memcpy (queue fifo) off data 0 (Z.to_nat (entry_size fifo)) in
  let fifo := set_queue fifo q in
  set_avail fifo (u16 (avail fifo + 1)).

Definition __sbi_fifo_is_empty (fifo : sbi_fifo) : bool :=
  if avail fifo =? 0 then true else false.

Definition sbi_fifo_is_empty (fifo : option sbi_fifo) : Z :=
  match fifo with
  | None => SBI_EINVAL
  | Some f => int_of_bool (__sbi_fifo_is_empty f)
  end.

Definition __sbi_fifo_reset (fifo : sbi_fifo) : sbi_fifo :=
  let size := size_t xl (size_t xl (num_entries fifo) * entry_size fifo) in
  let fifo := set_avail fifo 0 in
  let fifo := set_tail fifo 0 in
  set_queue fifo (sbi_memset (queue fifo) 0 0 (Z.to_nat size)).

(** The public functions return their C result together with the state of
    [*fifo] afterwards ([None] when there is no queue). *)
Definition sbi_fifo_reset (fifo : option sbi_fifo) : bool * option sbi_fifo :=
  match fifo with
  | None => (false, None)
  | Some f => (true, Some (__sbi_fifo_reset f))
  end.

Definition sbi_fifo_enqueue (fifo : option sbi_fifo) (data : option mem)
    : Z * option sbi_fifo :=
  match fifo, data with
  | Some f, Some d =>
      if __sbi_fifo_is_full f then (SBI_ENOSPC, Some f)
      else (0, Some (__sbi_fifo_enqueue f d))
  | _, _ => (SBI_EINVAL, fifo)
  end.

(** [sbi_fifo_dequeue] also returns the region [data] points to as the call
    leaves it. *)
Definition sbi_fifo_dequeue (fifo : option sbi_fifo) (data : option mem)
    : Z * option sbi_fifo * option mem :=
  match fifo, data with
  | Some f, Some d =>
      if __sbi_fifo_is_empty f then (SBI_ENOENT, Some f, Some d)
      else
        let off := Z.to_nat (u32 (u32 (tail f) * entry_size f)) in
        let d' :=
          if entry_size f =? 1 then store 1 d 0 (load 1 (queue f) off)
          else if entry_size f =? 2 then store 2 d 0 (load 2 (queue f) off)
          else if entry_size f =? 4 then store 4 d 0 (load 4 (queue f) off)
          else if (entry_size f =? 8) && (32 <? xlen_bits xl)
            then store 8 d 0 (load 8 (queue f) off)
          else sbi_memcpy d 0 (queue f) off (Z.to_nat (entry_size f)) in
        let f := set_avail f (u16 (avail f - 1)) in
        let f := set_tail f (u16 (tail f + 1)) in
        let f := if tail f >=? num_entries f then set_tail f 0 else f in
        (0, Some f, Some d')
  | _, _ => (SBI_EINVAL, fifo, data)
  end.

(** *** In-place update *)

(** The callback [fptr(in, entry)] sees the context and the bytes of one
    slot; it returns its [int] result, the context and the slot as it leaves
    them.  Only the [entry_size] bytes of the slot are written back. *)
Definition callback : Type := ctx -> mem -> Z * ctx * mem.

(** What a call of [sbi_fifo_inplace_update] leaves behind: its result, the
    queue, the context, and (a ghost) the calls of [fptr] it made, each as
    the slot index it was given and the value it returned. *)
Record update_result : Type := mk_update {
  upd_ret : Z;
  upd_fifo : option sbi_fifo;
  upd_in : option ctx;
  upd_calls : list (Z * Z)
}.

(** The [for] loop, from the test [i < fifo->avail] on.  [n] bounds the
    number of iterations left; [update_loop_fuel] shows that the bound the
    function passes is never the reason the loop ends. *)
Fixpoint update_loop (fptr : callback) (n : nat) (i : Z) (fifo : sbi_fifo)
    (in_ : ctx) (ret : Z) (calls : list (Z * Z)) : update_result :=
  if i <? avail fifo then
    match n with
    | O => mk_update ret (Some fifo) (Some in_) calls
    | S n' =>
        let index := s32 (tail fifo + i) in
        let index :=
          if index >=? num_entries fifo then s32 (index - num_entries fifo)
          else index in
        let off := Z.to_nat (u32 (u32 index * entry_size fifo)) in
        let esz := Z.to_nat (entry_size fifo) in
        let '(ret, in_, entry) := fptr in_ (take esz (drop off (queue fifo))) in
        let fifo :=
          set_queue fifo (list_inserts off (take esz entry) (queue fifo)) in
        let calls := calls ++ [(index, ret)] in
        if (ret =? SBI_FIFO_SKIP) || (ret =? SBI_FIFO_UPDATED)
        then mk_update ret (Some fifo) (Some in_) calls
        else update_loop fptr n' (s32 (i + 1)) fifo in_ ret calls
    end
  else mk_update ret (Some fifo) (Some in_) calls.

Definition sbi_fifo_inplace_update (fifo : option sbi_fifo)
    (in_ : option ctx) (fptr : callback) : update_result :=
  let ret := SBI_FIFO_UNCHANGED in
  match fifo, in_ with
  | Some f, Some c =>
      if __sbi_fifo_is_empty f then mk_update ret fifo in_ []
      else update_loop fptr (Z.to_nat (avail f)) 0 f c ret []
  | _, _ => mk_update ret fifo in_ []
  end.

(** The results of [fptr] that end the scan. *)
Definition scan_stops (ret : Z) : bool :=
  (ret =? SBI_FIFO_SKIP) || (ret =? SBI_FIFO_UPDATED).

(** *** Calls and reachable states *)

(** One call of the interface on a queue, with its arguments. *)
Inductive call : Type :=
  | Enqueue (data : option mem)
  | Dequeue (data : option mem)
  | Reset
  | InPlaceUpdate (in_ : option ctx) (fptr : callback)
  | Available
  | IsFull
  | IsEmpty.

(** What the caller observes of a call. *)
Inductive outcome : Type :=
  | RInt (ret : Z)
  | RBool (ret : bool)
  | RData (ret : Z) (data : option mem)
  | RUpdate (ret : Z) (in_ : option ctx) (calls : list (Z * Z)).

Definition do_call (c : call) (fifo : option sbi_fifo)
    : outcome * option sbi_fifo :=
  match c with
  | Enqueue data =>
      let '(r, fifo') := sbi_fifo_enqueue fifo data in (RInt r, fifo')
  | Dequeue data =>
      let '(r, fifo', data') := sbi_fifo_dequeue fifo data in
      (RData r data', fifo')
  | Reset => let '(r, fifo') := sbi_fifo_reset fifo in (RBool r, fifo')
  | InPlaceUpdate in_ fptr =>
      let u := sbi_fifo_inplace_update fifo in_ fptr in
      (RUpdate (upd_ret u) (upd_in u) (upd_calls u), upd_fifo u)
  | Available => (RInt (sbi_fifo_avail fifo), fifo)
  | IsFull => (RInt (sbi_fifo_is_full fifo), fifo)
  | IsEmpty => (RInt (sbi_fifo_is_empty fifo), fifo)
  end.

(** A sequence of calls on one queue: the outcomes in order and the final
    state. *)
Fixpoint run (cs : list call) (fifo : option sbi_fifo)
    : list outcome * option sbi_fifo :=
  match cs with
  | [] => ([], fifo)
  | c :: cs' =>
      let '(o, fifo') := do_call c fifo in
      let '(os, fifo'') := run cs' fifo' in
      (o :: os, fifo'')
  end.

(** A 16-bit argument. *)
Definition is_u16 (z : Z) : Prop := 0 <= z < 2 ^ 16.

(** The states a queue can be in: those [sbi_fifo_init] produces from a
    region that is large enough, and those a call leads to from there. *)
Inductive reachable : sbi_fifo -> Prop :=
  | reach_init (queue_mem : mem) (entries esz : Z) :
      is_u16 entries -> is_u16 esz ->
      entries * esz <= Z.of_nat (length queue_mem) ->
      reachable (sbi_fifo_init queue_mem entries esz)
  | reach_call (f f' : sbi_fifo) (c : call) :
      reachable f ->
      snd (do_call c (Some f)) = Some f' ->
      reachable f'.

(** *** Invariants *)

(** The geometry fixed at initialisation: 16-bit capacity and width, and a
    region that holds all the slots. *)
Record geometry_ok (f : sbi_fifo) : Prop := {
  geo_entries : is_u16 (num_entries f);
  geo_size : is_u16 (entry_size f);
  geo_queue : num_entries f * entry_size f <= Z.of_nat (length (queue f))
}.

(** The queue invariant of the data model. *)
Record fifo_invariant (f : sbi_fifo) : Prop := {
  inv_geometry : geometry_ok f;
  inv_avail : 0 <= avail f <= num_entries f;
  inv_tail : 0 <= tail f < num_entries f
}.

(** What holds of every reachable state, a queue of capacity zero
    included: there [tail] stays at 0, which is not below the capacity. *)
Record fifo_sane (f : sbi_fifo) : Prop := {
  sane_geometry : geometry_ok f;
  sane_avail : 0 <= avail f <= num_entries f;
  sane_tail : 0 <= tail f < num_entries f \/ (tail f = 0 /\ num_entries f = 0)
}.

(** *** The trace of a scan *)


(** *** The scenario of the specification: capacity 4, entries of 4 bytes *)

(** The entry that holds the 32-bit value [v], and the output buffer the
    dequeues are given. *)
Definition entry4 (v : Z) : mem := le_split 4 v.

Definition out4 : mem := replicate 4 x00.

Definition scenario_queue : option sbi_fifo :=
  Some (sbi_fifo_init (replicate 16 x00) 4 4).

Definition enq (v : Z) : call := Enqueue (Some (entry4 v)).

Definition deq : call := Dequeue (Some out4).

(** Enqueue 1, 2, 3; Available, IsFull; Dequeue; Available; Enqueue 4, 5;
    Available, IsFull; Enqueue 6; Available; Dequeue four times. *)
Definition scenario_calls : list call :=
  [enq 1; enq 2; enq 3; Available; IsFull; deq; Available; enq 4; enq 5;
   Available; IsFull; enq 6; Available; deq; deq; deq; deq].

Definition got (v : Z) : outcome := RData 0 (Some (entry4 v)).

(** The outcomes as the specification lists them: the four final dequeues
    return 2, 4, 5 and then fail. *)
Definition scenario_as_written : list outcome :=
  [RInt 0; RInt 0; RInt 0; RInt 3; RInt 0; got 1; RInt 2; RInt 0; RInt 0;
   RInt 4; RInt 1; RInt SBI_ENOSPC; RInt 4;
   got 2; got 4; got 5; RData SBI_ENOENT (Some out4)].

(** The outcomes of the code, with a fifth dequeue added at the end. *)
Definition scenario_outcomes : list outcome :=
  [RInt 0; RInt 0; RInt 0; RInt 3; RInt 0; got 1; RInt 2; RInt 0; RInt 0;
   RInt 4; RInt 1; RInt SBI_ENOSPC; RInt 4;
   got 2; got 3; got 4; got 5; RData SBI_ENOENT (Some out4)].

(** *** The scan on a list of entries *)

(** What the scan does to the entries of a queue taken as a list, oldest
    first: fptr gets each entry in turn with the context the previous call
    left, the first [esz] bytes it hands back replace the start of the entry,
    and the scan ends after a call whose result stops it.  The result, the
    final context and the entries afterwards. *)
Fixpoint scan_entries (fptr : callback) (esz : nat) (es : list mem) (c : ctx)
    (ret : Z) : Z * ctx * list mem :=
  match es with
  | [] => (ret, c, [])
  | e :: es' =>
      let '(r, c', e') := fptr c e in
      let e'' := list_inserts 0 (take esz e') e in
      if scan_stops r then (r, c', e'' :: es')
      else
        let '(r2, c2, es2) := scan_entries fptr esz es' c' r in
        (r2, c2, e'' :: es2)
  end.

(** *** Counting entries from what the caller sees *)

(** The number of entries a caller expects in the queue after a call, from
    the number before it and the outcome: an enqueue that returned 0 added
    one, a dequeue that returned 0 took one, a reset that returned true
    left none. *)
Definition count_step (n : Z) (c : call) (o : outcome) : Z :=
  match c, o with
  | Enqueue _, RInt r => if r =? 0 then n + 1 else n
  | Dequeue _, RData r _ => if r =? 0 then n - 1 else n
  | Reset, RBool true => 0
  | _, _ => n
  end.

Fixpoint count_run (n : Z) (cs : list call) (os : list outcome) : Z :=
  match cs, os with
  | c :: cs', o :: os' => count_run (count_step n c o) cs' os'
  | _, _ => n
  end.

(** * Properties *)

(** ** Machine arithmetic in range *)

Lemma u16_small (z : Z) : 0 <= z < 2 ^ 16 -> u16 z = z.
Proof. intros H. unfold u16. now apply Z.mod_small. Qed.

Lemma u32_small (z : Z) : 0 <= z < 2 ^ 32 -> u32 z = z.
Proof. intros H. unfold u32. now apply Z.mod_small. Qed.

Lemma s32_small (z : Z) : - 2 ^ 31 <= z < 2 ^ 31 -> s32 z = z.
Proof. intros H. unfold s32. rewrite Z.mod_small; lia. Qed.

Lemma size_t_small (z : Z) : 0 <= z < 2 ^ 32 -> size_t xl z = z.
Proof.
  intros H. unfold size_t. apply Z.mod_small.
  destruct xl; simpl xlen_bits; lia.
Qed.

(** ** Bytes: a native load followed by a native store copies bytes *)

Lemma byte_to_Z_range (b : byte) : 0 <= byte_to_Z b < 256.
Proof.
  unfold byte_to_Z. pose proof (Byte.to_N_bounded b) as Hb. lia.
Qed.

Lemma byte_of_to_Z (b : byte) : byte_of_Z (byte_to_Z b) = b.
Proof.
  unfold byte_of_Z. rewrite Z.mod_small by apply byte_to_Z_range.
  unfold byte_to_Z. rewrite N2Z.id. now rewrite Byte.of_to_N.
Qed.

Lemma le_split_combine (bs : list byte) :
  le_split (length bs) (le_combine bs) = bs.
Proof.
  induction bs as [|b bs IH]; [reflexivity|].
  cbn [length le_split le_combine].
  pose proof (byte_to_Z_range b) as Hb.
  assert (Hm : (byte_to_Z b + 256 * le_combine bs) mod 256 = byte_to_Z b).
  { generalize (le_combine bs). intros v. Z.div_mod_to_equations. lia. }
  assert (Hd : (byte_to_Z b + 256 * le_combine bs) / 256 = le_combine bs).
  { generalize (le_combine bs). intros v. Z.div_mod_to_equations. lia. }
  now rewrite Hm, Hd, byte_of_to_Z, IH.
Qed.

Lemma native_copy (w : nat) (dst : mem) (doff : nat) (src : mem) (soff : nat) :
  (soff + w <= length src)%nat ->
  store w dst doff (load w src soff) = sbi_memcpy dst doff src soff w.
Proof.
  intros Hlen. unfold store, load, sbi_memcpy.
  assert (Hw : length (take w (drop soff src)) = w).
  { rewrite length_take, length_drop. lia. }
  rewrite <- Hw at 1. now rewrite le_split_combine.
Qed.

(** ** Writing a run of bytes and reading slots back *)

Lemma read_back (q bs : mem) (off : nat) :
  (off + length bs <= length q)%nat ->
  take (length bs) (drop off (list_inserts off bs q)) = bs.
Proof.
  intros Hlen. apply list_eq. intros k.
  rewrite lookup_take, lookup_drop. case_decide as Hk.
  - rewrite list_lookup_inserts by lia. f_equal. lia.
  - symmetry. apply lookup_ge_None. lia.
Qed.

Lemma read_elsewhere (q bs : mem) (off off' n : nat) :
  (off' + n <= off \/ off + length bs <= off')%nat ->
  take n (drop off' (list_inserts off bs q)) = take n (drop off' q).
Proof.
  intros Hdisj. apply list_eq. intros k.
  rewrite !lookup_take. case_decide as Hk; [|reflexivity].
  rewrite !lookup_drop. destruct Hdisj as [Hlt|Hge].
  - apply list_lookup_inserts_lt. lia.
  - apply list_lookup_inserts_ge. lia.
Qed.

Lemma fill_all (q : mem) (n : nat) (b : byte) :
  (n <= length q)%nat ->
  take n (list_inserts 0 (replicate n b) q) = replicate n b.
Proof.
  intros Hlen.
  pose proof (read_back q (replicate n b) 0) as H.
  rewrite length_replicate in H. simpl drop in H. apply H. simpl. lia.
Qed.

(** ** The two copy strategies *)

(** The [switch] of [__sbi_fifo_enqueue] stores what [sbi_memcpy] would. *)
Lemma enqueue_bytewise (f : sbi_fifo) (data : mem) :
  (Z.to_nat (entry_size f) <= length data)%nat ->
  __sbi_fifo_enqueue f data =
  set_avail
    (set_queue f
       (sbi_memcpy (queue f) (Z.to_nat (u32 (enqueue_head f * entry_size f)))
          data 0 (Z.to_nat (entry_size f))))
    (u16 (avail f + 1)).
Proof.
  intros Hlen. unfold __sbi_fifo_enqueue. cbv zeta. do 2 f_equal.
  destruct (Z.eqb_spec (entry_size f) 1) as [E|_];
    [rewrite E in *; apply native_copy; exact Hlen|].
  destruct (Z.eqb_spec (entry_size f) 2) as [E|_];
    [rewrite E in *; apply native_copy; exact Hlen|].
  destruct (Z.eqb_spec (entry_size f) 4) as [E|_];
    [rewrite E in *; apply native_copy; exact Hlen|].
  destruct (Z.eqb_spec (entry_size f) 8) as [E|_]; [|reflexivity].
  destruct (32 <? xlen_bits xl); [|reflexivity].
  rewrite E in *. apply native_copy. exact Hlen.
Qed.

(** The same for the [switch] of [sbi_fifo_dequeue]. *)
Lemma dequeue_bytewise (f : sbi_fifo) (d : mem) :
  avail f <> 0 ->
  (Z.to_nat (u32 (u32 (tail f) * entry_size f)) + Z.to_nat (entry_size f)
     <= length (queue f))%nat ->
  snd (sbi_fifo_dequeue (Some f) (Some d)) =
  Some (sbi_memcpy d 0 (queue f)
          (Z.to_nat (u32 (u32 (tail f) * entry_size f)))
          (Z.to_nat (entry_size f))).
Proof.
  intros Hne Hlen. unfold sbi_fifo_dequeue, __sbi_fifo_is_empty.
  destruct (Z.eqb_spec (avail f) 0) as [|_]; [contradiction|].
  cbv zeta. cbn [snd]. f_equal.
  destruct (Z.eqb_spec (entry_size f) 1) as [E|_];
    [rewrite E in *; apply native_copy; exact Hlen|].
  destruct (Z.eqb_spec (entry_size f) 2) as [E|_];
    [rewrite E in *; apply native_copy; exact Hlen|].
  destruct (Z.eqb_spec (entry_size f) 4) as [E|_];
    [rewrite E in *; apply native_copy; exact Hlen|].
  destruct (Z.eqb_spec (entry_size f) 8) as [E|_]; [|reflexivity].
  destruct (32 <? xlen_bits xl); [|reflexivity].
  rewrite E in *. apply native_copy. exact Hlen.
Qed.

(** ** Index arithmetic under the invariant *)

Lemma wrap_mod (x c : Z) :
  0 < c -> 0 <= x < 2 * c -> x mod c = if x <? c then x else x - c.
Proof.
  intros Hc Hx. destruct (Z.ltb_spec x c) as [Hlt|Hge].
  - apply Z.mod_small. lia.
  - symmetry. apply (Z.mod_unique _ _ 1); lia.
Qed.

Lemma offset_in_range (i c e : Z) :
  is_u16 c -> is_u16 e -> 0 <= i < c -> 0 <= i * e < 2 ^ 32.
Proof. unfold is_u16. intros Hc He Hi. nia. Qed.

Lemma slot_offset_u32 (f : sbi_fifo) (i : Z) :
  geometry_ok f -> 0 <= i < num_entries f ->
  Z.to_nat (u32 (i * entry_size f)) = slot_offset f i.
Proof.
  intros [Hc He _] Hi. unfold slot_offset.
  rewrite u32_small; [reflexivity|].
  apply (offset_in_range i (num_entries f) (entry_size f)); assumption.
Qed.

(** A slot of the ring lies inside the region. *)
Lemma slot_in_region (f : sbi_fifo) (i : Z) :
  geometry_ok f -> 0 <= i < num_entries f ->
  (slot_offset f i + Z.to_nat (entry_size f) <= length (queue f))%nat.
Proof.
  intros [Hc He Hq] Hi. unfold slot_offset, is_u16 in *. nia.
Qed.

(** Two different slots do not overlap. *)
Lemma slots_disjoint (f : sbi_fifo) (i j : Z) :
  geometry_ok f -> 0 <= i -> 0 <= j -> i <> j ->
  (slot_offset f j + Z.to_nat (entry_size f) <= slot_offset f i \/
   slot_offset f i + Z.to_nat (entry_size f) <= slot_offset f j)%nat.
Proof.
  intros [Hc He Hq] Hi Hj Hne. unfold slot_offset, is_u16 in *.
  destruct (Z.lt_total i j) as [Hlt|[Heq|Hgt]]; [right|contradiction|left]; nia.
Qed.

Lemma enqueue_head_mod (f : sbi_fifo) :
  fifo_invariant f -> avail f < num_entries f ->
  enqueue_head f = (tail f + avail f) mod num_entries f.
Proof.
  intros [[Hc He Hq] Ha Ht] Hroom. unfold enqueue_head, is_u16 in *.
  rewrite (u32_small (tail f)) by lia.
  rewrite (u32_small (tail f + avail f)) by lia.
  rewrite wrap_mod by lia.
  destruct (Z.geb_spec (tail f + avail f) (num_entries f)) as [Hge|Hlt];
    destruct (Z.ltb_spec (tail f + avail f) (num_entries f)); try lia.
  apply u32_small. lia.
Qed.

Lemma head_in_range (f : sbi_fifo) :
  fifo_invariant f ->
  0 <= (tail f + avail f) mod num_entries f < num_entries f.
Proof. intros [_ _ Ht]. apply Z.mod_pos_bound. lia. Qed.

(** ** What the operations do to a queue that satisfies the invariant *)

Lemma enqueue_ok (f : sbi_fifo) (data : mem) :
  fifo_invariant f -> avail f <> num_entries f ->
  (Z.to_nat (entry_size f) <= length data)%nat ->
  sbi_fifo_enqueue (Some f) (Some data) =
  (0, Some (mk_fifo
              (list_inserts
                 (slot_offset f ((tail f + avail f) mod num_entries f))
                 (take (Z.to_nat (entry_size f)) data) (queue f))
              (num_entries f) (entry_size f) (avail f + 1) (tail f))).
Proof.
  intros Hinv Hroom Hlen. unfold sbi_fifo_enqueue, __sbi_fifo_is_full.
  destruct (Z.eqb_spec (avail f) (num_entries f)) as [|_]; [contradiction|].
  rewrite enqueue_bytewise by exact Hlen.
  pose proof (head_in_range f Hinv) as Hh.
  destruct Hinv as [Hgeo Ha Ht].
  rewrite enqueue_head_mod by (try split; auto; lia).
  rewrite slot_offset_u32 by auto.
  destruct Hgeo as [Hc He Hq]. unfold is_u16 in *.
  rewrite u16_small by lia. reflexivity.
Qed.

Lemma dequeue_ok (f : sbi_fifo) (d : mem) :
  fifo_invariant f -> avail f <> 0 ->
  sbi_fifo_dequeue (Some f) (Some d) =
  (0,
   Some (mk_fifo (queue f) (num_entries f) (entry_size f) (avail f - 1)
           ((tail f + 1) mod num_entries f)),
   Some (list_inserts 0 (slot f (tail f)) d)).
Proof.
  intros Hinv Hne.
  pose proof (dequeue_bytewise f d Hne) as Hcopy.
  destruct Hinv as [Hgeo Ha Ht].
  pose proof (slot_in_region f (tail f) Hgeo Ht) as Hin.
  pose proof (slot_offset_u32 f (tail f) Hgeo Ht) as Hoff.
  destruct Hgeo as [Hc He Hq]. unfold is_u16 in *.
  revert Hcopy. unfold sbi_fifo_dequeue, __sbi_fifo_is_empty.
  destruct (Z.eqb_spec (avail f) 0) as [|_]; [contradiction|].
  cbv zeta. cbn [snd set_avail set_tail tail num_entries queue entry_size avail].
  rewrite (u32_small (tail f)) by lia.
  rewrite Hoff.
  intros Hcopy. rewrite (Hcopy Hin).
  rewrite !u16_small by lia. rewrite wrap_mod by lia.
  unfold sbi_memcpy, slot.
  destruct (Z.geb_spec (tail f + 1) (num_entries f)) as [Hge|Hlt];
    destruct (Z.ltb_spec (tail f + 1) (num_entries f)); try lia;
    cbn [set_tail queue num_entries entry_size avail]; repeat f_equal; lia.
Qed.

(** ** The scan of [sbi_fifo_inplace_update] *)

Lemma set_queue_invariant (f : sbi_fifo) (q : mem) :
  length q = length (queue f) ->
  fifo_invariant f -> fifo_invariant (set_queue f q).
Proof.
  intros Hlen [[Hc He Hq] Ha Ht].
  repeat split; cbn [set_queue queue num_entries entry_size avail tail];
    unfold is_u16 in *; lia.
Qed.

(** The index the loop computes is the position in the ring. *)
Lemma scan_index (f : sbi_fifo) (j : nat) :
  fifo_invariant f -> Z.of_nat j < avail f ->
  (if s32 (tail f + Z.of_nat j) >=? num_entries f
   then s32 (s32 (tail f + Z.of_nat j) - num_entries f)
   else s32 (tail f + Z.of_nat j)) = ring_index f j.
Proof.
  intros [[Hc He Hq] Ha Ht] Hj. unfold ring_index, is_u16 in *.
  rewrite (s32_small (tail f + Z.of_nat j)) by lia.
  rewrite wrap_mod by lia.
  destruct (Z.geb_spec (tail f + Z.of_nat j) (num_entries f));
    destruct (Z.ltb_spec (tail f + Z.of_nat j) (num_entries f)); try lia.
  apply s32_small. lia.
Qed.

(** The loop leaves the bookkeeping fields and the size of the region
    alone, and always hands back the queue and the context. *)
Lemma update_loop_frame (fptr : callback) (n : nat) :
  forall (i : Z) (f : sbi_fifo) (c : ctx) (ret : Z) (calls : list (Z * Z)),
  exists (f' : sbi_fifo) (c' : ctx),
    upd_fifo (update_loop fptr n i f c ret calls) = Some f' /\
    upd_in (update_loop fptr n i f c ret calls) = Some c' /\
    num_entries f' = num_entries f /\ entry_size f' = entry_size f /\
    avail f' = avail f /\ tail f' = tail f /\
    length (queue f') = length (queue f).
Proof.
  induction n as [|n IH]; intros i f c ret calls; cbn [update_loop].
  - destruct (i <? avail f); exists f, c; repeat split; reflexivity.
  - destruct (i <? avail f); [|exists f, c; repeat split; reflexivity].
    destruct (fptr c _) as [[r c1] e].
    match goal with |- context [set_queue f ?q] => set (f1 := set_queue f q) end.
    assert (Hlen : length (queue f1) = length (queue f))
      by (subst f1; cbn [set_queue queue]; apply length_inserts).
    destruct ((r =? SBI_FIFO_SKIP) || (r =? SBI_FIFO_UPDATED)).
    + exists f1, c1. repeat split; try reflexivity. exact Hlen.
    + destruct (IH (s32 (i + 1)) f1 c1 r (calls ++ [(
        (if s32 (tail f + i) >=? num_entries f
         then s32 (s32 (tail f + i) - num_entries f)
         else s32 (tail f + i)), r)]))
        as (f' & c' & Hf & Hc & H1 & H2 & H3 & H4 & H5).
      exists f', c'. rewrite Hf, Hc, H1, H2, H3, H4, H5.
      repeat split; try reflexivity. exact Hlen.
Qed.





(** The bound on the iterations is never what ends the loop: any larger
    bound gives the same run. *)
Lemma update_loop_fuel (fptr : callback) (n : nat) :
  forall (m j : nat) (f : sbi_fifo) (c : ctx) (ret : Z) (calls : list (Z * Z)),
  avail f < 2 ^ 16 ->
  n = (Z.to_nat (avail f) - j)%nat -> (n <= m)%nat ->
  update_loop fptr m (Z.of_nat j) f c ret calls =
  update_loop fptr n (Z.of_nat j) f c ret calls.
Proof.
  induction n as [|n IH]; intros m j f c ret calls Ha Hn Hm.
  - destruct m; cbn [update_loop]; [reflexivity|].
    destruct (Z.ltb_spec (Z.of_nat j) (avail f)); [lia|reflexivity].
  - destruct m as [|m]; [lia|]. cbn [update_loop].
    destruct (Z.of_nat j <? avail f); [|reflexivity].
    destruct (fptr c _) as [[r c1] e].
    destruct ((r =? SBI_FIFO_SKIP) || (r =? SBI_FIFO_UPDATED)); [reflexivity|].
    assert (Hs : s32 (Z.of_nat j + 1) = Z.of_nat (S j))
      by (rewrite s32_small; lia).
    rewrite Hs. apply IH; cbn [set_queue avail]; lia.
Qed.

(** ** Every call keeps a queue sane *)

Lemma invariant_sane (f : sbi_fifo) :
  fifo_invariant f <-> fifo_sane f /\ 0 < num_entries f.
Proof.
  split.
  - intros [Hgeo Ha Ht]. split; [split; auto|lia].
  - intros [[Hgeo Ha Ht] Hpos]. split; auto. lia.
Qed.

Lemma init_sane (queue_mem : mem) (entries esz : Z) :
  is_u16 entries -> is_u16 esz ->
  entries * esz <= Z.of_nat (length queue_mem) ->
  fifo_sane (sbi_fifo_init queue_mem entries esz).
Proof.
  intros Hc He Hq. unfold sbi_fifo_init, sbi_memset.
  split; [split|..]; cbn [set_queue queue num_entries entry_size avail tail];
    rewrite ?length_inserts; unfold is_u16 in *; lia.
Qed.

Lemma enqueue_fields (f : sbi_fifo) (data : mem) :
  exists q : mem,
    length q = length (queue f) /\
    __sbi_fifo_enqueue f data =
    mk_fifo q (num_entries f) (entry_size f) (u16 (avail f + 1)) (tail f).
Proof.
  unfold __sbi_fifo_enqueue. cbv zeta.
  match goal with |- context [set_queue f ?q] => exists q end.
  split; [|reflexivity].
  repeat match goal with |- context [if ?b then _ else _] => destruct b end;
    apply length_inserts.
Qed.

Lemma do_call_sane (c : call) (f f' : sbi_fifo) :
  fifo_sane f -> snd (do_call c (Some f)) = Some f' ->
  fifo_sane f' /\ num_entries f' = num_entries f /\
  entry_size f' = entry_size f.
Proof.
  intros Hsane. pose proof Hsane as [[Hc He Hq] Ha Ht]. unfold is_u16 in *.
  destruct c as [data|data| |in_ fptr| | |]; cbn [do_call].
  - (* Enqueue *)
    unfold sbi_fifo_enqueue, __sbi_fifo_is_full.
    destruct data as [d|]; [|cbn; intros [= <-]; auto].
    destruct (Z.eqb_spec (avail f) (num_entries f)) as [Hfull|Hroom];
      [cbn; intros [= <-]; auto|].
    destruct (enqueue_fields f d) as (q & Hlen & ->). cbn. intros [= <-].
    cbn [num_entries entry_size]. repeat split; cbn; unfold is_u16;
      rewrite ?u16_small; lia.
  - (* Dequeue *)
    destruct data as [d|]; [|cbn; intros [= <-]; auto].
    destruct (Z.eq_dec (avail f) 0) as [Hempty|Hne].
    + unfold sbi_fifo_dequeue, __sbi_fifo_is_empty.
      rewrite Hempty. cbn. intros [= <-]. auto.
    + assert (Hinv : fifo_invariant f) by (apply invariant_sane; split; [auto|lia]).
      rewrite (dequeue_ok f d Hinv Hne). cbn. intros [= <-].
      cbn [num_entries entry_size].
      assert (0 <= (tail f + 1) mod num_entries f < num_entries f)
        by (apply Z.mod_pos_bound; lia).
      repeat split; cbn; unfold is_u16; lia.
  - (* Reset *)
    cbn. intros [= <-]. unfold __sbi_fifo_reset, sbi_memset.
    cbn [set_queue set_avail set_tail queue num_entries entry_size avail tail].
    repeat split; cbn; rewrite ?length_inserts; unfold is_u16; lia.
  - (* InPlaceUpdate *)
    unfold sbi_fifo_inplace_update.
    destruct in_ as [c|]; [|cbn; intros [= <-]; auto].
    destruct (__sbi_fifo_is_empty f); [cbn; intros [= <-]; auto|].
    destruct (update_loop_frame fptr (Z.to_nat (avail f)) 0 f c
                SBI_FIFO_UNCHANGED [])
      as (f1 & c1 & Hf & _ & H1 & H2 & H3 & H4 & H5).
    cbn [snd]. rewrite Hf. intros [= <-].
    repeat split; unfold is_u16; lia.
  - cbn. intros [= <-]. auto.
  - cbn. intros [= <-]. auto.
  - cbn. intros [= <-]. auto.
Qed.

Lemma reachable_sane (f : sbi_fifo) : reachable f -> fifo_sane f.
Proof.
  induction 1 as [queue_mem entries esz Hc He Hq|f f' c _ IH Hstep].
  - now apply init_sane.
  - now destruct (do_call_sane c f f' IH Hstep).
Qed.

Lemma reachable_invariant (f : sbi_fifo) :
  reachable f -> 0 < num_entries f -> fifo_invariant f.
Proof.
  intros Hr Hpos. apply invariant_sane. split; [|exact Hpos].
  now apply reachable_sane.
Qed.

(** ** The occupied run as a list of entries *)

Lemma ring_index_range (f : sbi_fifo) (k : nat) :
  0 < num_entries f -> 0 <= ring_index f k < num_entries f.
Proof. intros Hpos. apply Z.mod_pos_bound. exact Hpos. Qed.

Lemma ring_index_inj (f : sbi_fifo) (k1 k2 : nat) :
  fifo_invariant f ->
  Z.of_nat k1 < num_entries f -> Z.of_nat k2 < num_entries f ->
  ring_index f k1 = ring_index f k2 -> k1 = k2.
Proof.
  intros [_ _ Ht] H1 H2. unfold ring_index. rewrite !wrap_mod by lia.
  destruct (Z.ltb_spec (tail f + Z.of_nat k1) (num_entries f));
    destruct (Z.ltb_spec (tail f + Z.of_nat k2) (num_entries f)); lia.
Qed.

Lemma occupied_length (f : sbi_fifo) :
  length (occupied f) = Z.to_nat (avail f).
Proof. unfold occupied. now rewrite length_map, length_seq. Qed.

Lemma occupied_range (f : sbi_fifo) (i : Z) :
  0 < num_entries f -> In i (occupied f) -> 0 <= i < num_entries f.
Proof.
  intros Hpos Hin. apply in_map_iff in Hin as (k & <- & _).
  now apply ring_index_range.
Qed.

(** The occupied slots are pairwise different. *)
Lemma occupied_NoDup (f : sbi_fifo) :
  fifo_invariant f -> List.NoDup (occupied f).
Proof.
  intros Hinv. pose proof Hinv as [_ Ha _]. unfold occupied.
  apply Finite.Injective_map_NoDup_in; [|apply List.seq_NoDup].
  intros k1 k2 H1 H2. apply in_seq in H1, H2.
  apply ring_index_inj; [exact Hinv|lia|lia].
Qed.

(** The slot the next entry goes to is not occupied. *)
Lemma head_free (f : sbi_fifo) :
  fifo_invariant f -> avail f < num_entries f ->
  ~ In ((tail f + avail f) mod num_entries f) (occupied f).
Proof.
  intros Hinv Hroom Hin. pose proof Hinv as [_ Ha _].
  apply in_map_iff in Hin as (k & Heq & Hk). apply in_seq in Hk.
  assert (k = Z.to_nat (avail f)); [|lia].
  apply (ring_index_inj f); [exact Hinv|lia|lia|].
  rewrite Heq. unfold ring_index. now rewrite Z2Nat.id by lia.
Qed.

(** Writing one slot changes that slot and no other. *)
Lemma slot_written (f : sbi_fifo) (i : Z) (bs : mem) :
  geometry_ok f -> 0 <= i < num_entries f ->
  length bs = Z.to_nat (entry_size f) ->
  slot (set_queue f (list_inserts (slot_offset f i) bs (queue f))) i = bs.
Proof.
  intros Hgeo Hi Hlen. unfold slot. cbn [set_queue queue entry_size].
  change (slot_offset (mk_fifo _ _ _ _ _) i) with (slot_offset f i).
  rewrite <- Hlen. apply read_back. rewrite Hlen.
  now apply slot_in_region.
Qed.

Lemma slot_kept (f : sbi_fifo) (i j : Z) (bs : mem) :
  geometry_ok f -> 0 <= i -> 0 <= j -> i <> j ->
  length bs = Z.to_nat (entry_size f) ->
  slot (set_queue f (list_inserts (slot_offset f i) bs (queue f))) j =
  slot f j.
Proof.
  intros Hgeo Hi Hj Hne Hlen. unfold slot. cbn [set_queue queue entry_size].
  change (slot_offset (mk_fifo _ _ _ _ _) j) with (slot_offset f j).
  apply read_elsewhere. rewrite Hlen. now apply slots_disjoint.
Qed.

(** An enqueue appends to the contents, a dequeue removes their first
    entry. *)
Lemma contents_enqueue (f : sbi_fifo) (bs : mem) :
  fifo_invariant f -> avail f < num_entries f ->
  length bs = Z.to_nat (entry_size f) ->
  contents
    (mk_fifo
       (list_inserts (slot_offset f ((tail f + avail f) mod num_entries f))
          bs (queue f))
       (num_entries f) (entry_size f) (avail f + 1) (tail f)) =
  contents f ++ [bs].
Proof.
  intros Hinv Hroom Hlen. pose proof Hinv as [Hgeo Ha Ht].
  pose proof (head_in_range f Hinv) as Hh.
  pose proof (head_free f Hinv Hroom) as Hfree.
  set (h := (tail f + avail f) mod num_entries f) in *.
  unfold contents, occupied. cbn [avail].
  replace (Z.to_nat (avail f + 1)) with (S (Z.to_nat (avail f))) by lia.
  rewrite seq_S, !map_app. cbn [map]. f_equal.
  - apply map_ext_in. intros i Hi.
    apply (slot_kept f h i bs Hgeo); try lia.
    + apply (occupied_range f i) in Hi; lia.
    + intros ->. contradiction.
  - f_equal.
    replace (ring_index _ (0 + Z.to_nat (avail f))) with h.
    + now apply (slot_written f h bs Hgeo).
    + subst h. unfold ring_index. cbn [tail num_entries].
      f_equal. lia.
Qed.

Lemma contents_dequeue (f : sbi_fifo) :
  fifo_invariant f -> avail f <> 0 ->
  contents f =
  slot f (tail f) ::
  contents
    (mk_fifo (queue f) (num_entries f) (entry_size f) (avail f - 1)
       ((tail f + 1) mod num_entries f)).
Proof.
  intros [Hgeo Ha Ht] Hne. unfold contents, occupied. cbn [avail].
  assert (Hs : Z.to_nat (avail f) = S (Z.to_nat (avail f - 1))) by lia.
  rewrite Hs.
  cbn [seq map]. f_equal.
  - f_equal. unfold ring_index. rewrite Z.add_0_r. apply Z.mod_small. lia.
  - rewrite <- seq_shift, !map_map. apply map_ext. intros k.
    unfold slot, slot_offset, ring_index. cbn [queue entry_size tail num_entries].
    rewrite Z.add_mod_idemp_l by lia.
    replace (tail f + Z.of_nat (S k)) with (tail f + 1 + Z.of_nat k) by lia.
    reflexivity.
Qed.

(** A dequeue takes the slot at tail out of the occupied run and leaves
    the rest of the run in its order. *)
Lemma occupied_dequeue (f : sbi_fifo) :
  fifo_invariant f -> avail f <> 0 ->
  occupied f =
  tail f ::
  occupied
    (mk_fifo (queue f) (num_entries f) (entry_size f) (avail f - 1)
       ((tail f + 1) mod num_entries f)).
Proof.
  intros [Hgeo Ha Ht] Hne. unfold occupied. cbn [avail].
  assert (Hs : Z.to_nat (avail f) = S (Z.to_nat (avail f - 1))) by lia.
  rewrite Hs. cbn [seq map]. f_equal.
  - unfold ring_index. rewrite Z.add_0_r. apply Z.mod_small. lia.
  - rewrite <- seq_shift, map_map. apply map_ext. intros k.
    unfold ring_index. cbn [tail num_entries].
    rewrite Z.add_mod_idemp_l by lia.
    replace (tail f + Z.of_nat (S k)) with (tail f + 1 + Z.of_nat k) by lia.
    reflexivity.
Qed.

(** The occupied run depends on tail, avail and the capacity only. *)
Lemma occupied_fields (f f' : sbi_fifo) :
  num_entries f' = num_entries f -> avail f' = avail f -> tail f' = tail f ->
  occupied f' = occupied f.
Proof.
  intros Hn Ha Ht. unfold occupied. rewrite Ha. apply map_ext. intros k.
  unfold ring_index. now rewrite Hn, Ht.
Qed.

Lemma contents_empty (f : sbi_fifo) : avail f = 0 -> contents f = [].
Proof. intros H. unfold contents, occupied. now rewrite H. Qed.

Lemma slot_length (f : sbi_fifo) (i : Z) :
  geometry_ok f -> 0 <= i < num_entries f ->
  length (slot f i) = Z.to_nat (entry_size f).
Proof.
  intros Hgeo Hi. pose proof (slot_in_region f i Hgeo Hi) as Hin.
  unfold slot. rewrite length_take, length_drop. lia.
Qed.

(** ** Sequences of calls *)

Lemma run_app (cs1 cs2 : list call) (h : option sbi_fifo) :
  run (cs1 ++ cs2) h =
  (fst (run cs1 h) ++ fst (run cs2 (snd (run cs1 h))),
   snd (run cs2 (snd (run cs1 h)))).
Proof.
  revert h. induction cs1 as [|c cs1 IH]; intros h.
  - cbn. now destruct (run cs2 h).
  - change ((c :: cs1) ++ cs2) with (c :: (cs1 ++ cs2)). cbn [run].
    destruct (do_call c h) as [o h1]. rewrite IH.
    destruct (run cs1 h1) as [os1 h2]. cbn [fst snd].
    now destruct (run cs2 h2).
Qed.

Lemma run_enqueues (es : list mem) :
  forall f : sbi_fifo,
  fifo_invariant f ->
  Forall (fun e : mem => (Z.to_nat (entry_size f) <= length e)%nat) es ->
  avail f + Z.of_nat (length es) <= num_entries f ->
  exists f' : sbi_fifo,
    run (map (fun e => Enqueue (Some e)) es) (Some f) =
    (map (fun _ => RInt 0) es, Some f') /\
    fifo_invariant f' /\
    num_entries f' = num_entries f /\ entry_size f' = entry_size f /\
    avail f' = avail f + Z.of_nat (length es) /\
    contents f' = contents f ++ map (take (Z.to_nat (entry_size f))) es.
Proof.
  induction es as [|e es IH]; intros f Hinv Hes Hroom.
  - exists f. cbn [map run length]. rewrite app_nil_r.
    split; [reflexivity|]. split; [exact Hinv|]. repeat split. lia.
  - apply Forall_cons in Hes as [He Hes]. cbn [length] in Hroom.
    pose proof Hinv as [Hgeo Ha Ht].
    assert (Hne : avail f <> num_entries f) by lia.
    pose proof (enqueue_ok f e Hinv Hne He) as Henq.
    set (f1 := mk_fifo _ _ _ _ _) in Henq.
    assert (Hinv1 : fifo_invariant f1).
    { destruct Hgeo as [Hc Hz Hq].
      repeat split; subst f1; cbn; rewrite ?length_inserts;
        unfold is_u16 in *; lia. }
    destruct (IH f1 Hinv1) as (f' & Hrun & Hinv' & Hc' & He' & Ha' & Hcont).
    { exact Hes. }
    { subst f1. cbn [avail num_entries]. lia. }
    exists f'. cbn [map run do_call]. rewrite Henq, Hrun.
    split; [reflexivity|]. split; [exact Hinv'|].
    rewrite Hc', He', Ha', Hcont.
    assert (Hcont1 : contents f1 =
                     contents f ++ [take (Z.to_nat (entry_size f)) e]).
    { apply contents_enqueue; [exact Hinv|lia|]. rewrite length_take. lia. }
    rewrite Hcont1, <- app_assoc. subst f1. cbn [num_entries entry_size avail].
    split; [reflexivity|]. split; [reflexivity|].
    split; [cbn [length]; lia|reflexivity].
Qed.

Lemma run_dequeues (d : mem) (n : nat) :
  forall f : sbi_fifo,
  fifo_invariant f -> Z.to_nat (avail f) = n ->
  exists f' : sbi_fifo,
    run (replicate n (Dequeue (Some d))) (Some f) =
    (map (fun e => RData 0 (Some (list_inserts 0 e d))) (contents f),
     Some f') /\
    fifo_invariant f' /\ avail f' = 0.
Proof.
  induction n as [|n IH]; intros f Hinv Hn; pose proof Hinv as [Hgeo Ha Ht].
  - exists f. rewrite contents_empty by lia. cbn [replicate run map].
    split; [reflexivity|]. split; [exact Hinv|lia].
  - assert (Hne : avail f <> 0) by lia.
    pose proof (dequeue_ok f d Hinv Hne) as Hdeq.
    rewrite (contents_dequeue f Hinv Hne).
    set (f1 := mk_fifo _ _ _ _ _) in *.
    assert (Hinv1 : fifo_invariant f1).
    { assert (0 <= (tail f + 1) mod num_entries f < num_entries f)
        by (apply Z.mod_pos_bound; lia).
      destruct Hgeo as [Hc Hz Hq].
      repeat split; subst f1; cbn; unfold is_u16 in *; lia. }
    destruct (IH f1 Hinv1) as (f' & Hrun & Hinv' & Ha').
    { subst f1. cbn [avail]. lia. }
    exists f'. cbn [replicate run do_call]. rewrite Hdeq, Hrun.
    split; [reflexivity|]. split; [exact Hinv'|exact Ha'].
Qed.

Lemma do_call_total (c : call) (f : sbi_fifo) :
  exists f' : sbi_fifo, snd (do_call c (Some f)) = Some f'.
Proof.
  destruct c as [data|data| |in_ fptr| | |]; cbn [do_call].
  - unfold sbi_fifo_enqueue. destruct data; [|cbn; eauto].
    destruct (__sbi_fifo_is_full f); cbn; eauto.
  - unfold sbi_fifo_dequeue. destruct data; [|cbn; eauto].
    destruct (__sbi_fifo_is_empty f); cbn; eauto.
  - cbn. eauto.
  - unfold sbi_fifo_inplace_update. destruct in_ as [c|]; [|cbn; eauto].
    destruct (__sbi_fifo_is_empty f); [cbn; eauto|].
    destruct (update_loop_frame fptr (Z.to_nat (avail f)) 0 f c
                SBI_FIFO_UNCHANGED []) as (f' & _ & Hf & _).
    exists f'. exact Hf.
  - cbn. eauto.
  - cbn. eauto.
  - cbn. eauto.
Qed.

Lemma reachable_run (cs : list call) :
  forall f f' : sbi_fifo,
  reachable f -> snd (run cs (Some f)) = Some f' -> reachable f'.
Proof.
  induction cs as [|c cs IH]; intros f f' Hreach Hrun.
  - cbn in Hrun. now injection Hrun as <-.
  - cbn [run] in Hrun. destruct (do_call_total c f) as [f1 Hf1].
    assert (Hreach1 : reachable f1) by exact (reach_call f f1 c Hreach Hf1).
    destruct (do_call c (Some f)) as [o h]. cbn [snd] in Hf1. subst h.
    destruct (run cs (Some f1)) as [os h] eqn:Hrest. cbn [snd] in Hrun.
    apply (IH f1 f' Hreach1). now rewrite Hrest.
Qed.

(** * The claims *)

(** C1 (as amended): every state reachable from an initialisation with a
    capacity of at least one satisfies the queue invariant, 0 <= avail <=
    num_entries and 0 <= tail < num_entries.  The occupied slots are avail
    pairwise different slots of the ring, those at tail, tail + 1, ... taken
    modulo the capacity.  When the queue is not full the next enqueue writes
    its entry to slot (tail + avail) mod num_entries, leaves every other slot
    as it was, and that slot becomes the last occupied one.  When the queue
    is not empty a dequeue hands out the slot at tail, changes no slot, and
    leaves the rest of the run occupied, in its order; a reset leaves no
    slot occupied, and an in-place update leaves the occupied run as it
    was.  Every call (enqueue, dequeue, reset, in-place update, and the
    queries) returns a state that satisfies the invariant again, and
    [sbi_fifo_init] with a capacity of at least one produces one. *)
Theorem queue_invariant_preserved (f : sbi_fifo) :
  reachable f -> 0 < num_entries f ->
  fifo_invariant f /\
  List.NoDup (occupied f) /\
  length (occupied f) = Z.to_nat (avail f) /\
  (forall i : Z, In i (occupied f) -> 0 <= i < num_entries f) /\
  (forall data : mem,
     avail f < num_entries f ->
     (Z.to_nat (entry_size f) <= length data)%nat ->
     exists f' : sbi_fifo,
       sbi_fifo_enqueue (Some f) (Some data) = (0, Some f') /\
       slot f' ((tail f + avail f) mod num_entries f) =
         take (Z.to_nat (entry_size f)) data /\
       (forall j : Z,
          0 <= j < num_entries f ->
          j <> (tail f + avail f) mod num_entries f -> slot f' j = slot f j) /\
       occupied f' = occupied f ++ [(tail f + avail f) mod num_entries f]) /\
  (forall d : mem,
     avail f <> 0 ->
     exists f' : sbi_fifo,
       sbi_fifo_dequeue (Some f) (Some d) =
         (0, Some f', Some (list_inserts 0 (slot f (tail f)) d)) /\
       occupied f = tail f :: occupied f' /\
       tail f' = (tail f + 1) mod num_entries f /\
       avail f' = avail f - 1 /\
       (forall j : Z, slot f' j = slot f j)) /\
  (exists f' : sbi_fifo,
     sbi_fifo_reset (Some f) = (true, Some f') /\ occupied f' = []) /\
  (forall (c : ctx) (fptr : callback),
     exists f' : sbi_fifo,
       upd_fifo (sbi_fifo_inplace_update (Some f) (Some c) fptr) = Some f' /\
       occupied f' = occupied f) /\
  (forall c : call,
     exists f' : sbi_fifo,
       snd (do_call c (Some f)) = Some f' /\ fifo_invariant f') /\
  (forall (queue_mem : mem) (entries esz : Z),
     is_u16 entries -> is_u16 esz ->
     entries * esz <= Z.of_nat (length queue_mem) -> 0 < entries ->
     fifo_invariant (sbi_fifo_init queue_mem entries esz)).
Proof.
  intros Hreach Hpos.
  pose proof (reachable_invariant f Hreach Hpos) as Hinv.
  split; [exact Hinv|]. split; [now apply occupied_NoDup|].
  split; [apply occupied_length|].
  split; [intros i; now apply occupied_range|].
  split; [|split; [|split; [|split; [|split]]]].
  - (* enqueue *)
    intros data Hroom Hlen. pose proof Hinv as [Hgeo Ha Ht].
    pose proof (head_in_range f Hinv) as Hh.
    assert (Hne : avail f <> num_entries f) by lia.
    rewrite (enqueue_ok f data Hinv Hne Hlen).
    set (h := (tail f + avail f) mod num_entries f) in *.
    assert (Hbs : length (take (Z.to_nat (entry_size f)) data) =
                  Z.to_nat (entry_size f)) by (rewrite length_take; lia).
    eexists. split; [reflexivity|]. split; [|split].
    + now apply (slot_written f h _ Hgeo).
    + intros j Hj Hjh. apply (slot_kept f h j _ Hgeo); auto; lia.
    + unfold occupied. cbn [avail].
      replace (Z.to_nat (avail f + 1)) with (S (Z.to_nat (avail f))) by lia.
      rewrite seq_S, map_app. cbn [map]. do 2 f_equal.
      subst h. unfold ring_index. cbn [tail num_entries]. f_equal. lia.
  - (* dequeue *)
    intros d Hne. rewrite (dequeue_ok f d Hinv Hne). eexists.
    split; [reflexivity|]. split; [now apply occupied_dequeue|].
    cbn [tail avail]. repeat split.
  - (* reset *)
    eexists. split; [reflexivity|]. reflexivity.
  - (* in-place update *)
    intros c fptr. unfold sbi_fifo_inplace_update.
    destruct (__sbi_fifo_is_empty f); [exists f; split; reflexivity|].
    destruct (update_loop_frame fptr (Z.to_nat (avail f)) 0 f c
                SBI_FIFO_UNCHANGED [])
      as (f' & _ & Hf & _ & Hn & _ & Ha & Ht & _).
    exists f'. split; [exact Hf|]. now apply occupied_fields.
  - (* every call *)
    intros c. destruct (do_call_total c f) as [f' Hf']. exists f'.
    split; [exact Hf'|]. apply reachable_invariant.
    + now apply (reach_call f f' c).
    + apply reachable_sane in Hreach.
      destruct (do_call_sane c f f' Hreach Hf') as (_ & -> & _). exact Hpos.
  - (* initialisation *)
    intros queue_mem entries esz Hc He Hq Hent.
    apply reachable_invariant; [now apply reach_init|exact Hent].
Qed.

Lemma scenario_init :
  sbi_fifo_init (replicate 16 x00) 4 4 = mk_fifo (replicate 16 x00) 4 4 0 0.
Proof.
  unfold sbi_fifo_init. cbn [set_queue queue num_entries entry_size avail tail].
  rewrite (size_t_small 4) by lia. rewrite (size_t_small (4 * 4)) by lia.
  reflexivity.
Qed.

(** C2 (as amended): from a reachable state with room for them, enqueuing
    the entries es succeeds each time, and dequeuing until the queue is empty
    then returns what the queue held before followed by the entries of es,
    in the order they were enqueued.  In the scenario with capacity 4 and
    4-byte entries the calls return what the specification lists up to the
    final dequeues, which return 2, 3, 4 and 5; a fifth one fails with
    SBI_ENOENT. *)
Theorem fifo_order (f : sbi_fifo) (es : list mem) (d : mem) :
  reachable f ->
  Forall (fun e : mem => (Z.to_nat (entry_size f) <= length e)%nat) es ->
  avail f + Z.of_nat (length es) <= num_entries f ->
  (exists f' : sbi_fifo,
     run (map (fun e => Enqueue (Some e)) es ++
          replicate (Z.to_nat (avail f) + length es) (Dequeue (Some d)))
       (Some f) =
     (map (fun _ => RInt 0) es ++
      map (fun e => RData 0 (Some (list_inserts 0 e d)))
        (contents f ++ map (take (Z.to_nat (entry_size f))) es),
      Some f') /\
     avail f' = 0) /\
  fst (run (scenario_calls ++ [deq]) scenario_queue) = scenario_outcomes.
Proof.
  intros Hreach Hes Hroom. split.
  2:{ unfold scenario_queue. rewrite scenario_init. vm_compute. reflexivity. }
  pose proof (reachable_sane f Hreach) as Hsane.
  pose proof Hsane as [_ Ha _].
  destruct (Z.eq_dec (num_entries f) 0) as [Hzero|Hpos].
  - (* a queue of capacity zero takes no entry *)
    assert (Hav : avail f = 0) by lia.
    destruct es as [|e es]; [|cbn [length] in Hroom; lia].
    exists f. rewrite Hav, contents_empty by exact Hav. cbn. auto.
  - assert (Hinv : fifo_invariant f)
      by (apply invariant_sane; split; [exact Hsane|lia]).
    destruct (run_enqueues es f Hinv Hes Hroom)
      as (f1 & Hrun1 & Hinv1 & _ & _ & Ha1 & Hcont1).
    destruct (run_dequeues d (Z.to_nat (avail f) + length es) f1 Hinv1)
      as (f2 & Hrun2 & _ & Ha2); [lia|].
    exists f2. rewrite run_app, Hrun1. cbn [fst snd].
    rewrite Hrun2, Hcont1. cbn [fst snd]. auto.
Qed.

(** C3: an enqueue on a queue with avail = num_entries returns SBI_ENOSPC
    and a dequeue on a queue with avail = 0 returns SBI_ENOENT; both leave
    every field of the queue and every byte of its region as they were (the
    dequeue leaves the caller's buffer untouched as well). *)
Theorem error_atomicity (f : sbi_fifo) (data : mem) :
  (avail f = num_entries f ->
   sbi_fifo_enqueue (Some f) (Some data) = (SBI_ENOSPC, Some f)) /\
  (avail f = 0 ->
   sbi_fifo_dequeue (Some f) (Some data) = (SBI_ENOENT, Some f, Some data)).
Proof.
  split; intros H.
  - unfold sbi_fifo_enqueue, __sbi_fifo_is_full.
    now rewrite H, Z.eqb_refl.
  - unfold sbi_fifo_dequeue, __sbi_fifo_is_empty. now rewrite H.
Qed.

(** C4: on a reachable queue [sbi_fifo_reset] returns true and leaves
    avail = 0, tail = 0 and the num_entries * entry_size bytes of the
    region all zero, with the capacity and the entry width unchanged; it
    returns false exactly when the queue pointer is absent, and then there
    is nothing it changes. *)
Theorem reset_postcondition (f : sbi_fifo) :
  reachable f ->
  (exists f' : sbi_fifo,
     sbi_fifo_reset (Some f) = (true, Some f') /\
     avail f' = 0 /\ tail f' = 0 /\
     num_entries f' = num_entries f /\ entry_size f' = entry_size f /\
     length (queue f') = length (queue f) /\
     take (Z.to_nat (num_entries f * entry_size f)) (queue f') =
       replicate (Z.to_nat (num_entries f * entry_size f)) x00) /\
  (forall h : option sbi_fifo, fst (sbi_fifo_reset h) = false <-> h = None) /\
  sbi_fifo_reset None = (false, None).
Proof.
  intros Hreach. apply reachable_sane in Hreach as [[Hc He Hq] Ha Ht].
  split; [|split; [|reflexivity]].
  - eexists. split; [reflexivity|].
    unfold __sbi_fifo_reset, sbi_memset.
    cbn [set_queue set_avail set_tail queue num_entries entry_size avail tail].
    repeat (split; [reflexivity|]). split; [apply length_inserts|].
    unfold is_u16 in *.
    rewrite (size_t_small (num_entries f)) by lia.
    rewrite size_t_small by nia.
    apply fill_all. lia.
  - intros [g|]; cbn; split; congruence.
Qed.





(** C6: on an absent queue [sbi_fifo_avail] returns 0, while
    [sbi_fifo_is_full] and [sbi_fifo_is_empty] return SBI_EINVAL;
    [sbi_fifo_enqueue] and [sbi_fifo_dequeue] return SBI_EINVAL when the
    queue or the data pointer is absent, and change nothing. *)
Theorem null_handle_asymmetry :
  sbi_fifo_avail None = 0 /\
  sbi_fifo_is_full None = SBI_EINVAL /\
  sbi_fifo_is_empty None = SBI_EINVAL /\
  (forall data : option mem,
     sbi_fifo_enqueue None data = (SBI_EINVAL, None) /\
     sbi_fifo_dequeue None data = (SBI_EINVAL, None, data)) /\
  (forall fifo : option sbi_fifo,
     sbi_fifo_enqueue fifo None = (SBI_EINVAL, fifo) /\
     sbi_fifo_dequeue fifo None = (SBI_EINVAL, fifo, None)).
Proof.
  repeat split; try reflexivity.
  - now destruct fifo.
  - now destruct fifo.
Qed.

(** C7: for every entry width, and so for the widths 1, 2 and 4 (and 8
    when the word size exceeds 32) that take the native load and store, the
    region after [__sbi_fifo_enqueue] and the caller's buffer after
    [sbi_fifo_dequeue] hold the bytes that the byte-wise [sbi_memcpy] of
    entry_size bytes to the same place leaves there, provided the
    entry_size bytes that are read exist: a load of w bytes followed by a
    store of the value writes, at any position, the w bytes that were
    read. *)
Theorem copy_strategy_equivalence (f : sbi_fifo) (data : mem) :
  ((Z.to_nat (entry_size f) <= length data)%nat ->
   queue (__sbi_fifo_enqueue f data) =
   sbi_memcpy (queue f) (Z.to_nat (u32 (enqueue_head f * entry_size f)))
     data 0 (Z.to_nat (entry_size f))) /\
  (avail f <> 0 ->
   (Z.to_nat (u32 (u32 (tail f) * entry_size f)) + Z.to_nat (entry_size f)
      <= length (queue f))%nat ->
   snd (sbi_fifo_dequeue (Some f) (Some data)) =
   Some (sbi_memcpy data 0 (queue f)
           (Z.to_nat (u32 (u32 (tail f) * entry_size f)))
           (Z.to_nat (entry_size f)))) /\
  (forall (w : nat) (dst src : mem) (doff soff : nat),
     (soff + w <= length src)%nat ->
     store w dst doff (load w src soff) = sbi_memcpy dst doff src soff w).
Proof.
  split; [|split].
  - intros Hlen. now rewrite enqueue_bytewise.
  - apply dequeue_bytewise.
  - intros w dst src doff soff. apply native_copy.
Qed.

(** C8: with an absent queue or an absent context
    [sbi_fifo_inplace_update] returns SBI_FIFO_UNCHANGED, makes no call of
    fptr and leaves the queue and the context as they were, where
    [sbi_fifo_enqueue] and [sbi_fifo_dequeue] return SBI_EINVAL for an
    absent pointer. *)
Theorem inplace_update_null (fifo : option sbi_fifo) (in_ : option ctx)
    (fptr : callback) :
  sbi_fifo_inplace_update None in_ fptr =
    mk_update SBI_FIFO_UNCHANGED None in_ [] /\
  sbi_fifo_inplace_update fifo None fptr =
    mk_update SBI_FIFO_UNCHANGED fifo None [] /\
  fst (sbi_fifo_enqueue fifo None) = SBI_EINVAL /\
  fst (fst (sbi_fifo_dequeue fifo None)) = SBI_EINVAL /\
  (forall data : option mem,
     fst (sbi_fifo_enqueue None data) = SBI_EINVAL /\
     fst (fst (sbi_fifo_dequeue None data)) = SBI_EINVAL).
Proof.
  repeat split; try reflexivity; now destruct fifo.
Qed.

(** C10: a dequeue from a reachable, non-empty queue returns 0 and leaves
    the region byte for byte as it was, the dequeued slot included; it
    decrements avail, advances tail by one modulo num_entries, keeps the
    capacity and the entry width, and writes the entry_size bytes of the
    slot at tail to the start of the caller's buffer. *)
Theorem dequeue_frame (f : sbi_fifo) (d : mem) :
  reachable f -> avail f <> 0 ->
  exists f' : sbi_fifo,
    sbi_fifo_dequeue (Some f) (Some d) =
      (0, Some f', Some (list_inserts 0 (slot f (tail f)) d)) /\
    queue f' = queue f /\
    avail f' = avail f - 1 /\
    tail f' = (tail f + 1) mod num_entries f /\
    num_entries f' = num_entries f /\ entry_size f' = entry_size f /\
    length (slot f (tail f)) = Z.to_nat (entry_size f) /\
    slot f' (tail f) = slot f (tail f).
Proof.
  intros Hreach Hne. pose proof (reachable_sane f Hreach) as Hsane.
  pose proof Hsane as [_ Ha _].
  assert (Hinv : fifo_invariant f)
    by (apply invariant_sane; split; [exact Hsane|lia]).
  eexists. split; [apply (dequeue_ok f d Hinv Hne)|].
  cbn [queue avail tail num_entries entry_size].
  repeat (split; [reflexivity|]).
  destruct Hinv as [Hgeo _ Ht]. split; [now apply slot_length|reflexivity].
Qed.

(** * Further properties of the code *)

(** ** Initialisation, the queries, and single calls on the contents *)

Lemma drop_inserts (q bs : mem) (off n : nat) :
  (off + length bs <= n)%nat ->
  drop n (list_inserts off bs q) = drop n q.
Proof.
  intros Hn. apply list_eq. intros k. rewrite !lookup_drop.
  apply list_lookup_inserts_ge. lia.
Qed.

Lemma reachable_room_invariant (f : sbi_fifo) :
  reachable f -> avail f <> 0 \/ avail f < num_entries f -> fifo_invariant f.
Proof.
  intros Hreach Hcase. pose proof (reachable_sane f Hreach) as Hsane.
  pose proof Hsane as [_ Ha _].
  apply invariant_sane. split; [exact Hsane|lia].
Qed.

Lemma contents_length (f : sbi_fifo) :
  length (contents f) = Z.to_nat (avail f).
Proof. unfold contents. now rewrite length_map, occupied_length. Qed.

(** X1: [sbi_fifo_init] with 16-bit arguments and a region of at least
    entries * entry_size bytes records the capacity and the width, sets
    avail and tail to 0, zeroes the first entries * entry_size bytes of the
    region and leaves the bytes after them and the size of the region as
    they were.  The new queue holds no entry and reports empty; it reports
    full exactly when its capacity is 0. *)
Theorem init_postcondition (queue_mem : mem) (entries esz : Z) :
  is_u16 entries -> is_u16 esz ->
  entries * esz <= Z.of_nat (length queue_mem) ->
  num_entries (sbi_fifo_init queue_mem entries esz) = entries /\
  entry_size (sbi_fifo_init queue_mem entries esz) = esz /\
  avail (sbi_fifo_init queue_mem entries esz) = 0 /\
  tail (sbi_fifo_init queue_mem entries esz) = 0 /\
  length (queue (sbi_fifo_init queue_mem entries esz)) = length queue_mem /\
  take (Z.to_nat (entries * esz)) (queue (sbi_fifo_init queue_mem entries esz))
    = replicate (Z.to_nat (entries * esz)) x00 /\
  drop (Z.to_nat (entries * esz)) (queue (sbi_fifo_init queue_mem entries esz))
    = drop (Z.to_nat (entries * esz)) queue_mem /\
  contents (sbi_fifo_init queue_mem entries esz) = [] /\
  sbi_fifo_avail (Some (sbi_fifo_init queue_mem entries esz)) = 0 /\
  sbi_fifo_is_empty (Some (sbi_fifo_init queue_mem entries esz)) = 1 /\
  sbi_fifo_is_full (Some (sbi_fifo_init queue_mem entries esz)) =
    (if entries =? 0 then 1 else 0).
Proof.
  intros Hc He Hq. unfold is_u16 in *.
  assert (Hsize : size_t xl (size_t xl entries * esz) = entries * esz).
  { rewrite (size_t_small entries) by lia. apply size_t_small. nia. }
  unfold sbi_fifo_init, sbi_memset.
  cbn [set_queue queue num_entries entry_size avail tail].
  rewrite Hsize. repeat (split; [reflexivity|]).
  split; [apply length_inserts|]. split; [apply fill_all; lia|].
  split; [apply drop_inserts; rewrite length_replicate; lia|].
  split; [reflexivity|]. split; [reflexivity|]. split; [reflexivity|].
  unfold sbi_fifo_is_full, __sbi_fifo_is_full. cbn [avail num_entries].
  now destruct entries.
Qed.

(** What one call does to avail, read off its outcome. *)
Lemma do_call_count (c : call) (f : sbi_fifo) :
  SBI_EINVAL <> 0 -> SBI_ENOSPC <> 0 -> SBI_ENOENT <> 0 ->
  fifo_sane f ->
  exists f' : sbi_fifo,
    snd (do_call c (Some f)) = Some f' /\
    avail f' = count_step (avail f) c (fst (do_call c (Some f))).
Proof.
  intros Hinval Hnospc Hnoent [[Hc He Hq] Ha Ht]. unfold is_u16 in *.
  apply Z.eqb_neq in Hinval, Hnospc, Hnoent.
  destruct c as [data|data| |in_ fptr| | |]; cbn [do_call].
  - (* Enqueue *)
    unfold sbi_fifo_enqueue, __sbi_fifo_is_full.
    destruct data as [d|];
      [|exists f; cbn [fst snd count_step]; now rewrite Hinval].
    destruct (Z.eqb_spec (avail f) (num_entries f)) as [Hfull|Hroom];
      [exists f; cbn [fst snd count_step]; now rewrite Hnospc|].
    destruct (enqueue_fields f d) as (q & _ & ->).
    eexists. cbn [fst snd count_step Z.eqb avail].
    split; [reflexivity|]. apply u16_small. lia.
  - (* Dequeue *)
    unfold sbi_fifo_dequeue, __sbi_fifo_is_empty.
    destruct data as [d|];
      [|exists f; cbn [fst snd count_step]; now rewrite Hinval].
    destruct (Z.eqb_spec (avail f) 0) as [Hempty|Hne];
      [exists f; cbn [fst snd count_step]; now rewrite Hnoent|].
    cbv zeta. cbn [fst snd count_step Z.eqb]. eexists.
    split; [reflexivity|].
    cbn [set_avail set_tail tail num_entries avail].
    destruct (u16 (tail f + 1) >=? num_entries f);
      cbn [set_tail avail]; apply u16_small; lia.
  - (* Reset *)
    eexists. split; reflexivity.
  - (* InPlaceUpdate *)
    cbn [fst snd count_step]. unfold sbi_fifo_inplace_update.
    destruct in_ as [c|]; [|exists f; split; reflexivity].
    destruct (__sbi_fifo_is_empty f); [exists f; split; reflexivity|].
    destruct (update_loop_frame fptr (Z.to_nat (avail f)) 0 f c
                SBI_FIFO_UNCHANGED [])
      as (f' & _ & Hf & _ & _ & _ & Hav & _).
    exists f'. split; [exact Hf|exact Hav].
  - exists f. split; reflexivity.
  - exists f. split; reflexivity.
  - exists f. split; reflexivity.
Qed.

Lemma run_count (cs : list call) :
  SBI_EINVAL <> 0 -> SBI_ENOSPC <> 0 -> SBI_ENOENT <> 0 ->
  forall f : sbi_fifo,
  fifo_sane f ->
  exists f' : sbi_fifo,
    snd (run cs (Some f)) = Some f' /\ fifo_sane f' /\
    num_entries f' = num_entries f /\
    avail f' = count_run (avail f) cs (fst (run cs (Some f))).
Proof.
  intros Hinval Hnospc Hnoent.
  induction cs as [|c cs IH]; intros f Hsane.
  - exists f. cbn. auto.
  - destruct (do_call_count c f Hinval Hnospc Hnoent Hsane) as (f1 & Hf1 & Hc1).
    destruct (do_call_sane c f f1 Hsane Hf1) as (Hsane1 & Hn1 & _).
    destruct (IH f1 Hsane1) as (f' & Hf' & Hsane' & Hn' & Hc').
    exists f'. cbn [run].
    destruct (do_call c (Some f)) as [o h]. cbn [fst snd] in Hf1, Hc1.
    subst h. destruct (run cs (Some f1)) as [os h'].
    cbn [fst snd count_run] in *.
    split; [exact Hf'|]. split; [exact Hsane'|].
    split; [congruence|]. now rewrite <- Hc1.
Qed.

(** X2: the count [sbi_fifo_avail] returns is the count a caller keeps
    from the return values.  The error codes being different from 0, after
    any sequence of calls on a reachable queue [sbi_fifo_avail] returns what
    it returned before, plus one for every enqueue that returned 0, minus
    one for every dequeue that returned 0, and starting again from 0 at
    every reset; that count is never negative and never above
    num_entries. *)
Theorem avail_counts_successes (f : sbi_fifo) (cs : list call) :
  SBI_EINVAL <> 0 -> SBI_ENOSPC <> 0 -> SBI_ENOENT <> 0 ->
  reachable f ->
  sbi_fifo_avail (snd (run cs (Some f))) =
    count_run (sbi_fifo_avail (Some f)) cs (fst (run cs (Some f))) /\
  0 <= count_run (sbi_fifo_avail (Some f)) cs (fst (run cs (Some f)))
    <= num_entries f.
Proof.
  intros Hinval Hnospc Hnoent Hreach.
  destruct (run_count cs Hinval Hnospc Hnoent f (reachable_sane f Hreach))
    as (f' & Hf' & [_ Ha _] & Hn & Hc).
  rewrite Hf'. cbn [sbi_fifo_avail]. rewrite <- Hc. split; [reflexivity|lia].
Qed.

(** X3: on a reachable queue that holds fewer than num_entries entries,
    [sbi_fifo_enqueue] of a data region of at least entry_size bytes
    returns 0 and appends the first entry_size bytes of the data to the
    entries held, whose order and values it keeps; tail, the capacity and
    the width stay as they were.  On a queue that holds num_entries entries
    it returns SBI_ENOSPC and changes nothing. *)
Theorem enqueue_step (f : sbi_fifo) (data : mem) :
  reachable f ->
  (Z.to_nat (entry_size f) <= length data)%nat ->
  (Z.of_nat (length (contents f)) < num_entries f ->
   exists f' : sbi_fifo,
     sbi_fifo_enqueue (Some f) (Some data) = (0, Some f') /\
     contents f' = contents f ++ [take (Z.to_nat (entry_size f)) data] /\
     tail f' = tail f /\ num_entries f' = num_entries f /\
     entry_size f' = entry_size f) /\
  (Z.of_nat (length (contents f)) = num_entries f ->
   sbi_fifo_enqueue (Some f) (Some data) = (SBI_ENOSPC, Some f)).
Proof.
  intros Hreach Hdata. pose proof (reachable_sane f Hreach) as [_ Ha _].
  assert (Hlen : Z.of_nat (length (contents f)) = avail f)
    by (rewrite contents_length; lia).
  rewrite Hlen. split.
  - intros Hroom.
    assert (Hinv : fifo_invariant f)
      by (apply reachable_room_invariant; auto).
    assert (Hne : avail f <> num_entries f) by lia.
    rewrite (enqueue_ok f data Hinv Hne Hdata). eexists.
    split; [reflexivity|]. split; [|repeat split].
    apply contents_enqueue; [exact Hinv|exact Hroom|].
    rewrite length_take. lia.
  - intros Hfull. unfold sbi_fifo_enqueue, __sbi_fifo_is_full.
    now rewrite Hfull, Z.eqb_refl.
Qed.

(** X4: on a reachable queue that holds the entries e :: rest,
    [sbi_fifo_dequeue] returns 0, writes e over the first entry_size bytes
    of the caller's buffer, leaves the bytes of the buffer after them as
    they were, and leaves the queue holding rest; on a queue that holds no
    entry it returns SBI_ENOENT and changes neither the queue nor the
    buffer. *)
Theorem dequeue_step (f : sbi_fifo) (d : mem) :
  reachable f ->
  (contents f = [] ->
   sbi_fifo_dequeue (Some f) (Some d) = (SBI_ENOENT, Some f, Some d)) /\
  (forall (e : mem) (rest : list mem),
     contents f = e :: rest ->
     exists (f' : sbi_fifo) (d' : mem),
       sbi_fifo_dequeue (Some f) (Some d) = (0, Some f', Some d') /\
       contents f' = rest /\
       length d' = length d /\
       drop (Z.to_nat (entry_size f)) d' = drop (Z.to_nat (entry_size f)) d /\
       ((Z.to_nat (entry_size f) <= length d)%nat ->
        take (Z.to_nat (entry_size f)) d' = e)).
Proof.
  intros Hreach. pose proof (reachable_sane f Hreach) as [Hgeo Ha _].
  pose proof (contents_length f) as Hlen. split.
  - intros Hnil. rewrite Hnil in Hlen. cbn [length] in Hlen.
    unfold sbi_fifo_dequeue, __sbi_fifo_is_empty.
    replace (avail f) with 0 by lia. reflexivity.
  - intros e rest Hcons. rewrite Hcons in Hlen. cbn [length] in Hlen.
    assert (Hne : avail f <> 0) by lia.
    assert (Hinv : fifo_invariant f)
      by (apply reachable_room_invariant; auto).
    rewrite (contents_dequeue f Hinv Hne) in Hcons.
    injection Hcons as He Hrest.
    rewrite (dequeue_ok f d Hinv Hne), He. eexists _, _.
    split; [reflexivity|]. split; [exact Hrest|].
    assert (Hel : length e = Z.to_nat (entry_size f)).
    { rewrite <- He. apply slot_length; [exact Hgeo|]. now destruct Hinv. }
    split; [apply length_inserts|].
    split; [apply drop_inserts; lia|].
    intros Hd. rewrite <- Hel. apply (read_back d e 0). lia.
Qed.

(** ** How calls compose *)

Lemma inserts_twice (q bs : mem) (off : nat) :
  list_inserts off bs (list_inserts off bs q) = list_inserts off bs q.
Proof.
  apply list_eq. intros k.
  destruct (Nat.lt_ge_cases k off) as [Hlt|Hge].
  { now rewrite !list_lookup_inserts_lt by exact Hlt. }
  destruct (Nat.lt_ge_cases k (off + length bs)) as [Hin|Hout].
  - destruct (Nat.lt_ge_cases k (length q)) as [Hk|Hk].
    + rewrite !list_lookup_inserts by (rewrite ?length_inserts; lia).
      reflexivity.
    + rewrite !lookup_ge_None_2 by (rewrite ?length_inserts; lia).
      reflexivity.
  - now rewrite !list_lookup_inserts_ge by exact Hout.
Qed.

(** X5: on a reachable queue that is neither empty nor full, an enqueue
    followed by a dequeue and the same dequeue followed by the same enqueue
    both succeed, hand the same bytes to the caller and leave the queue in
    the same state, region included. *)
Theorem enqueue_dequeue_commute (f : sbi_fifo) (data d : mem) :
  reachable f ->
  avail f <> 0 -> avail f <> num_entries f ->
  (Z.to_nat (entry_size f) <= length data)%nat ->
  exists (g : sbi_fifo) (out : mem),
    run [Enqueue (Some data); Dequeue (Some d)] (Some f) =
      ([RInt 0; RData 0 (Some out)], Some g) /\
    run [Dequeue (Some d); Enqueue (Some data)] (Some f) =
      ([RData 0 (Some out); RInt 0], Some g).
Proof.
  intros Hreach Hne Hroom Hdata.
  assert (Hinv : fifo_invariant f) by (apply reachable_room_invariant; auto).
  pose proof Hinv as [Hgeo Ha Ht].
  assert (Hpos : 0 < num_entries f) by lia.
  pose proof (head_in_range f Hinv) as Hh.
  set (h := (tail f + avail f) mod num_entries f) in *.
  set (bs := take (Z.to_nat (entry_size f)) data).
  assert (Hbs : length bs = Z.to_nat (entry_size f))
    by (subst bs; rewrite length_take; lia).
  assert (Hht : h <> tail f).
  { intros Heq.
    assert (Hk : Z.to_nat (avail f) = 0%nat); [|lia].
    apply (ring_index_inj f); [exact Hinv|lia|lia|].
    unfold ring_index. rewrite Z2Nat.id by lia. fold h. rewrite Heq.
    cbn. rewrite Z.add_0_r. symmetry. apply Z.mod_small. lia. }
  (* enqueue first *)
  pose proof (enqueue_ok f data Hinv Hroom Hdata) as Henq. fold h bs in Henq.
  set (f1 := mk_fifo (list_inserts (slot_offset f h) bs (queue f))
               (num_entries f) (entry_size f) (avail f + 1) (tail f)) in *.
  assert (Hinv1 : fifo_invariant f1).
  { destruct Hgeo as [Hc Hz Hq].
    repeat split; subst f1; cbn; rewrite ?length_inserts;
      unfold is_u16 in *; lia. }
  assert (Hne1 : avail f1 <> 0) by (subst f1; cbn [avail]; lia).
  pose proof (dequeue_ok f1 d Hinv1 Hne1) as Hdeq1.
  assert (Hslot : slot f1 (tail f1) = slot f (tail f)).
  { subst f1. cbn [tail].
    apply (slot_kept f h (tail f) bs Hgeo); auto; lia. }
  rewrite Hslot in Hdeq1.
  (* dequeue first *)
  pose proof (dequeue_ok f d Hinv Hne) as Hdeq.
  set (f2 := mk_fifo (queue f) (num_entries f) (entry_size f) (avail f - 1)
               ((tail f + 1) mod num_entries f)) in *.
  assert (Ht2 : 0 <= (tail f + 1) mod num_entries f < num_entries f)
    by (apply Z.mod_pos_bound; lia).
  assert (Hinv2 : fifo_invariant f2).
  { destruct Hgeo as [Hc Hz Hq].
    repeat split; subst f2; cbn; unfold is_u16 in *; lia. }
  assert (Hroom2 : avail f2 <> num_entries f2)
    by (subst f2; cbn [avail num_entries]; lia).
  pose proof (enqueue_ok f2 data Hinv2 Hroom2 Hdata) as Henq2.
  assert (Hh2 : (tail f2 + avail f2) mod num_entries f2 = h).
  { subst f2 h. cbn [tail avail num_entries].
    rewrite Z.add_mod_idemp_l by lia. f_equal. lia. }
  rewrite Hh2 in Henq2.
  exists (mk_fifo (list_inserts (slot_offset f h) bs (queue f))
            (num_entries f) (entry_size f) (avail f)
            ((tail f + 1) mod num_entries f)),
    (list_inserts 0 (slot f (tail f)) d).
  split.
  - cbn [run do_call]. rewrite Henq, Hdeq1. subst f1.
    cbn [queue num_entries entry_size avail tail].
    replace (avail f + 1 - 1) with (avail f) by lia. reflexivity.
  - cbn [run do_call]. rewrite Hdeq, Henq2. subst f2.
    cbn [queue num_entries entry_size avail tail].
    replace (avail f - 1 + 1) with (avail f) by lia. reflexivity.
Qed.

(** X6: [sbi_fifo_reset] on a queue leaves it in the state [sbi_fifo_init]
    gives for the same region, capacity and width; the queue then holds no
    entry, a dequeue returns SBI_ENOENT, and a second reset changes
    nothing. *)
Theorem reset_reinitialises (f : sbi_fifo) (d : mem) :
  sbi_fifo_reset (Some f) =
    (true, Some (sbi_fifo_init (queue f) (num_entries f) (entry_size f))) /\
  contents (__sbi_fifo_reset f) = [] /\
  sbi_fifo_dequeue (Some (__sbi_fifo_reset f)) (Some d) =
    (SBI_ENOENT, Some (__sbi_fifo_reset f), Some d) /\
  sbi_fifo_reset (Some (__sbi_fifo_reset f)) =
    (true, Some (__sbi_fifo_reset f)).
Proof.
  split; [reflexivity|]. split; [reflexivity|]. split; [reflexivity|].
  cbn [sbi_fifo_reset]. do 2 f_equal.
  unfold __sbi_fifo_reset, sbi_memset.
  cbn [set_queue set_avail set_tail queue num_entries entry_size avail tail].
  now rewrite inserts_twice.
Qed.

(** X10: a reachable queue of capacity 0 is full and empty at once: every
    enqueue returns SBI_ENOSPC, every dequeue returns SBI_ENOENT, an
    in-place update makes no call of fptr, and no call, reset included,
    changes the state of the queue. *)
Theorem capacity_zero_queue (f : sbi_fifo) :
  reachable f -> num_entries f = 0 ->
  sbi_fifo_avail (Some f) = 0 /\
  sbi_fifo_is_full (Some f) = 1 /\ sbi_fifo_is_empty (Some f) = 1 /\
  (forall data : mem,
     sbi_fifo_enqueue (Some f) (Some data) = (SBI_ENOSPC, Some f)) /\
  (forall d : mem,
     sbi_fifo_dequeue (Some f) (Some d) = (SBI_ENOENT, Some f, Some d)) /\
  (forall (c : ctx) (fptr : callback),
     sbi_fifo_inplace_update (Some f) (Some c) fptr =
     mk_update SBI_FIFO_UNCHANGED (Some f) (Some c) []) /\
  (forall c : call, snd (do_call c (Some f)) = Some f).
Proof.
  intros Hreach Hzero. pose proof (reachable_sane f Hreach) as [_ Ha Ht].
  assert (Hav : avail f = 0) by lia.
  assert (Htl : tail f = 0) by lia.
  assert (Hfull : __sbi_fifo_is_full f = true)
    by (unfold __sbi_fifo_is_full; now rewrite Hav, Hzero).
  assert (Hempty : __sbi_fifo_is_empty f = true)
    by (unfold __sbi_fifo_is_empty; now rewrite Hav).
  assert (Henq : forall data : mem,
            sbi_fifo_enqueue (Some f) (Some data) = (SBI_ENOSPC, Some f))
    by (intros data; unfold sbi_fifo_enqueue; now rewrite Hfull).
  assert (Hdeq : forall d : mem,
            sbi_fifo_dequeue (Some f) (Some d) = (SBI_ENOENT, Some f, Some d))
    by (intros d; unfold sbi_fifo_dequeue; now rewrite Hempty).
  assert (Hupd : forall (c : ctx) (fptr : callback),
            sbi_fifo_inplace_update (Some f) (Some c) fptr =
            mk_update SBI_FIFO_UNCHANGED (Some f) (Some c) [])
    by (intros c fptr; unfold sbi_fifo_inplace_update; now rewrite Hempty).
  split; [exact Hav|].
  split; [unfold sbi_fifo_is_full; now rewrite Hfull|].
  split; [unfold sbi_fifo_is_empty; now rewrite Hempty|].
  split; [exact Henq|]. split; [exact Hdeq|]. split; [exact Hupd|].
  intros [data|data| |in_ fptr| | |]; cbn [do_call]; try reflexivity.
  - destruct data as [data|]; [now rewrite Henq|reflexivity].
  - destruct data as [d|]; [now rewrite Hdeq|reflexivity].
  - cbn [sbi_fifo_reset snd]. f_equal.
    unfold __sbi_fifo_reset, sbi_memset. rewrite Hzero.
    rewrite (size_t_small 0) by lia. rewrite Z.mul_0_l.
    rewrite (size_t_small 0) by lia.
    destruct f as [q n e a t]. cbn in *. now subst.
  - destruct in_ as [c|]; [now rewrite Hupd|reflexivity].
Qed.

(** ** The in-place update on the entries *)

Lemma read_back_partial (q bs : mem) (off n : nat) :
  (off + n <= length q)%nat -> (length bs <= n)%nat ->
  take n (drop off (list_inserts off bs q)) =
  list_inserts 0 bs (take n (drop off q)).
Proof.
  intros Hq Hbs. apply list_eq. intros k.
  destruct (Nat.lt_ge_cases k n) as [Hk|Hk].
  - rewrite lookup_take_lt, lookup_drop by exact Hk.
    destruct (Nat.lt_ge_cases k (length bs)) as [Hin|Hout].
    + rewrite !list_lookup_inserts
        by (rewrite ?length_take, ?length_drop; lia).
      f_equal. lia.
    + rewrite !list_lookup_inserts_ge by lia.
      now rewrite lookup_take_lt, lookup_drop by exact Hk.
  - rewrite lookup_take_ge by exact Hk. symmetry.
    apply lookup_ge_None_2. rewrite length_inserts, length_take. lia.
Qed.

Lemma inserts_same (q : mem) (off n : nat) :
  list_inserts off (take n (drop off q)) q = q.
Proof.
  apply list_eq. intros k.
  destruct (Nat.lt_ge_cases k off) as [Hlt|Hge].
  { now apply list_lookup_inserts_lt. }
  destruct (Nat.lt_ge_cases k (off + length (take n (drop off q))))
    as [Hin|Hout]; [|now apply list_lookup_inserts_ge].
  rewrite length_take, length_drop in Hin.
  rewrite list_lookup_inserts
    by (rewrite ?length_take, ?length_drop; lia).
  rewrite lookup_take_lt, lookup_drop by lia. f_equal. lia.
Qed.

Lemma slot_in_capacity (f : sbi_fifo) (i : Z) :
  geometry_ok f -> 0 <= i < num_entries f ->
  (slot_offset f i + Z.to_nat (entry_size f)
   <= Z.to_nat (num_entries f * entry_size f))%nat.
Proof.
  intros [Hc He Hq] Hi. unfold slot_offset, is_u16 in *. nia.
Qed.

Lemma slot_kept_le (f : sbi_fifo) (i j : Z) (bs : mem) :
  geometry_ok f -> 0 <= i -> 0 <= j -> i <> j ->
  (length bs <= Z.to_nat (entry_size f))%nat ->
  slot (set_queue f (list_inserts (slot_offset f i) bs (queue f))) j =
  slot f j.
Proof.
  intros Hgeo Hi Hj Hne Hlen. unfold slot. cbn [set_queue queue entry_size].
  change (slot_offset (mk_fifo _ _ _ _ _) j) with (slot_offset f j).
  apply read_elsewhere.
  destruct (slots_disjoint f i j Hgeo Hi Hj Hne) as [H|H]; [left|right]; lia.
Qed.

Lemma slot_rewritten (f : sbi_fifo) (i : Z) (bs : mem) :
  geometry_ok f -> 0 <= i < num_entries f ->
  (length bs <= Z.to_nat (entry_size f))%nat ->
  slot (set_queue f (list_inserts (slot_offset f i) bs (queue f))) i =
  list_inserts 0 bs (slot f i).
Proof.
  intros Hgeo Hi Hlen. unfold slot. cbn [set_queue queue entry_size].
  change (slot_offset (mk_fifo _ _ _ _ _) i) with (slot_offset f i).
  apply read_back_partial; [now apply slot_in_region|exact Hlen].
Qed.

(** The loop from the [j]-th occupied slot on, against the scan of the
    entries in those slots. *)
Lemma update_loop_entries (fptr : callback) (n : nat) :
  forall (j : nat) (f : sbi_fifo) (c : ctx) (ret : Z) (calls : list (Z * Z)),
  fifo_invariant f ->
  n = (Z.to_nat (avail f) - j)%nat ->
  exists (f' : sbi_fifo) (c' : ctx),
    upd_fifo (update_loop fptr n (Z.of_nat j) f c ret calls) = Some f' /\
    upd_in (update_loop fptr n (Z.of_nat j) f c ret calls) = Some c' /\
    (num_entries f' = num_entries f /\ entry_size f' = entry_size f /\
     avail f' = avail f /\ tail f' = tail f /\
     length (queue f') = length (queue f)) /\
    scan_entries fptr (Z.to_nat (entry_size f))
      (map (slot f) (map (ring_index f) (seq j n))) c ret =
    (upd_ret (update_loop fptr n (Z.of_nat j) f c ret calls), c',
     map (slot f') (map (ring_index f) (seq j n))) /\
    (forall i : Z,
       0 <= i -> ~ In i (map (ring_index f) (seq j n)) ->
       slot f' i = slot f i) /\
    drop (Z.to_nat (num_entries f * entry_size f)) (queue f') =
    drop (Z.to_nat (num_entries f * entry_size f)) (queue f).
Proof.
  induction n as [|n IH]; intros j f c ret calls Hinv Hn; cbn [update_loop].
  - exists f, c.
    destruct (Z.of_nat j <? avail f); cbn [upd_fifo upd_in upd_ret seq map];
      repeat split; reflexivity.
  - destruct (Z.ltb_spec (Z.of_nat j) (avail f)) as [Hlt|Hge]; [|lia].
    pose proof Hinv as [Hgeo Ha Ht].
    assert (Hpos : 0 < num_entries f) by lia.
    pose proof (ring_index_range f j Hpos) as Hidx.
    rewrite (scan_index f j Hinv Hlt).
    set (idx := ring_index f j) in *.
    rewrite (u32_small idx) by (destruct Hgeo as [Hc _ _]; unfold is_u16 in Hc; lia).
    rewrite (slot_offset_u32 f idx Hgeo Hidx).
    change (take (Z.to_nat (entry_size f)) (drop (slot_offset f idx) (queue f)))
      with (slot f idx).
    cbn [seq map scan_entries]. fold idx.
    destruct (fptr c (slot f idx)) as [[r c1] e1].
    set (bs := take (Z.to_nat (entry_size f)) e1).
    assert (Hbs : (length bs <= Z.to_nat (entry_size f))%nat)
      by (subst bs; rewrite length_take; lia).
    set (f1 := set_queue f (list_inserts (slot_offset f idx) bs (queue f))).
    assert (Hslot : slot f1 idx = list_inserts 0 bs (slot f idx))
      by (apply slot_rewritten; assumption).
    assert (Hkept : forall i : Z, 0 <= i -> i <> idx -> slot f1 i = slot f i)
      by (intros i Hi Hne; apply slot_kept_le; auto; lia).
    assert (Hfresh : ~ In idx (map (ring_index f) (seq (S j) n))).
    { intros Hin. apply in_map_iff in Hin as (k & Heq & Hk).
      apply in_seq in Hk.
      assert (k = j); [|lia].
      apply (ring_index_inj f); [exact Hinv|lia|lia|exact Heq]. }
    assert (Hrest : map (slot f1) (map (ring_index f) (seq (S j) n)) =
                    map (slot f) (map (ring_index f) (seq (S j) n))).
    { apply map_ext_in. intros i Hi. apply Hkept.
      - apply in_map_iff in Hi as (k & <- & _).
        pose proof (ring_index_range f k Hpos). lia.
      - intros ->. contradiction. }
    assert (Hdrop : drop (Z.to_nat (num_entries f * entry_size f)) (queue f1) =
                    drop (Z.to_nat (num_entries f * entry_size f)) (queue f)).
    { subst f1. cbn [set_queue queue]. apply drop_inserts.
      pose proof (slot_in_capacity f idx Hgeo Hidx). lia. }
    fold (scan_stops r).
    destruct (scan_stops r) eqn:Hstop.
    + exists f1, c1. cbn [upd_fifo upd_in upd_ret].
      split; [reflexivity|]. split; [reflexivity|].
      split; [repeat split; subst f1; cbn [set_queue queue];
              apply length_inserts|].
      split; [now rewrite Hslot, Hrest|]. split; [|exact Hdrop].
      intros i Hi Hnot. apply Hkept; [exact Hi|].
      intros ->. apply Hnot. now left.
    + assert (Hinv1 : fifo_invariant f1)
        by (apply set_queue_invariant; [apply length_inserts|exact Hinv]).
      assert (Hs : s32 (Z.of_nat j + 1) = Z.of_nat (S j)).
      { destruct Hgeo as [Hc He Hq]. unfold is_u16 in *.
        rewrite s32_small; lia. }
      rewrite Hs.
      destruct (IH (S j) f1 c1 r (calls ++ [(idx, r)]) Hinv1)
        as (f' & c' & Hf & Hc & Hfields & Hscan & Hframe & Hdrop');
        [subst f1; cbn [set_queue avail]; lia|].
      change (ring_index f1) with (ring_index f) in Hscan, Hframe.
      change (entry_size f1) with (entry_size f) in Hscan, Hdrop'.
      change (num_entries f1) with (num_entries f) in Hdrop'.
      rewrite Hrest in Hscan. rewrite Hscan.
      exists f', c'. split; [exact Hf|]. split; [exact Hc|].
      destruct Hfields as (H1 & H2 & H3 & H4 & H5).
      split; [repeat split; try assumption;
              rewrite H5; subst f1; cbn [set_queue queue];
              apply length_inserts|].
      split; [|split].
      * rewrite (Hframe idx) by (try assumption; lia). now rewrite Hslot.
      * intros i Hi Hnot. rewrite Hframe.
        -- apply Hkept; [exact Hi|]. intros ->. apply Hnot. now left.
        -- exact Hi.
        -- intros Hin. apply Hnot. now right.
      * now rewrite Hdrop', Hdrop.
Qed.

(** The call on a queue that is not empty, against the scan of the entries
    held. *)
Lemma inplace_update_nonempty (f : sbi_fifo) (c : ctx) (fptr : callback) :
  fifo_invariant f -> avail f <> 0 ->
  exists (f' : sbi_fifo) (c' : ctx),
    upd_fifo (sbi_fifo_inplace_update (Some f) (Some c) fptr) = Some f' /\
    upd_in (sbi_fifo_inplace_update (Some f) (Some c) fptr) = Some c' /\
    scan_entries fptr (Z.to_nat (entry_size f)) (contents f) c
      SBI_FIFO_UNCHANGED =
    (upd_ret (sbi_fifo_inplace_update (Some f) (Some c) fptr), c',
     contents f') /\
    avail f' = avail f /\ tail f' = tail f /\
    num_entries f' = num_entries f /\ entry_size f' = entry_size f /\
    (forall i : Z, 0 <= i -> ~ In i (occupied f) -> slot f' i = slot f i).
Proof.
  intros Hinv Hne. unfold sbi_fifo_inplace_update, __sbi_fifo_is_empty.
  destruct (Z.eqb_spec (avail f) 0) as [|_]; [contradiction|].
  destruct (update_loop_entries fptr (Z.to_nat (avail f)) 0 f c
              SBI_FIFO_UNCHANGED [] Hinv)
    as (f' & c' & Hf & Hc & (H1 & H2 & H3 & H4 & H5) & Hscan & Hframe & _);
    [lia|].
  change (Z.of_nat 0) with 0 in *.
  exists f', c'. split; [exact Hf|]. split; [exact Hc|].
  split; [|repeat split; assumption].
  unfold contents at 1. fold (occupied f) in Hscan. rewrite Hscan.
  do 2 f_equal. unfold contents, occupied.
  rewrite H3. f_equal. apply map_ext. intros k.
  unfold ring_index. now rewrite H1, H4.
Qed.

(** X8: on a reachable queue [sbi_fifo_inplace_update] is the scan of the
    entries the queue holds, oldest first: fptr gets each entry with the
    context the call before left, what it hands back replaces the entry, and
    the scan ends after the first call that returns SBI_FIFO_SKIP or
    SBI_FIFO_UPDATED; the result, the final context and the entries the
    queue holds afterwards are those of that scan.  The number of entries,
    tail, the capacity and the width are unchanged, and so is every slot
    that is not occupied. *)
Theorem inplace_update_on_contents (f : sbi_fifo) (c : ctx) (fptr : callback) :
  reachable f ->
  exists (f' : sbi_fifo) (c' : ctx),
    upd_fifo (sbi_fifo_inplace_update (Some f) (Some c) fptr) = Some f' /\
    upd_in (sbi_fifo_inplace_update (Some f) (Some c) fptr) = Some c' /\
    scan_entries fptr (Z.to_nat (entry_size f)) (contents f) c
      SBI_FIFO_UNCHANGED =
    (upd_ret (sbi_fifo_inplace_update (Some f) (Some c) fptr), c',
     contents f') /\
    avail f' = avail f /\ tail f' = tail f /\
    num_entries f' = num_entries f /\ entry_size f' = entry_size f /\
    (forall i : Z, 0 <= i -> ~ In i (occupied f) -> slot f' i = slot f i).
Proof.
  intros Hreach.
  destruct (Z.eq_dec (avail f) 0) as [Hempty|Hne].
  - exists f, c. unfold sbi_fifo_inplace_update, __sbi_fifo_is_empty.
    rewrite Hempty. cbn [Z.eqb upd_fifo upd_in upd_ret].
    rewrite contents_empty by exact Hempty. repeat split; reflexivity.
  - apply inplace_update_nonempty; [|exact Hne].
    apply reachable_room_invariant; auto.
Qed.

Lemma update_loop_readonly (fptr : callback) (n : nat) :
  (forall (c : ctx) (e : mem), snd (fptr c e) = e) ->
  forall (i : Z) (f : sbi_fifo) (c : ctx) (ret : Z) (calls : list (Z * Z)),
  upd_fifo (update_loop fptr n i f c ret calls) = Some f.
Proof.
  intros Hro. induction n as [|n IH]; intros i f c ret calls;
    cbn [update_loop].
  - now destruct (i <? avail f).
  - destruct (i <? avail f); [|reflexivity].
    match goal with |- context [fptr c ?x] =>
      pose proof (Hro c x) as He; destruct (fptr c x) as [[r c1] e1]
    end.
    cbn [snd] in He. subst e1.
    rewrite take_take, Nat.min_id, inserts_same.
    assert (Hf : set_queue f (queue f) = f) by now destruct f.
    rewrite Hf.
    destruct ((r =? SBI_FIFO_SKIP) || (r =? SBI_FIFO_UPDATED));
      [reflexivity|apply IH].
Qed.

(** X9: when fptr hands every entry back as it got it,
    [sbi_fifo_inplace_update] leaves the queue exactly as it was, fields
    and region, whatever fptr returns and however many slots it visits. *)
Theorem inplace_update_readonly (fifo : option sbi_fifo) (in_ : option ctx)
    (fptr : callback) :
  (forall (c : ctx) (e : mem), snd (fptr c e) = e) ->
  upd_fifo (sbi_fifo_inplace_update fifo in_ fptr) = fifo.
Proof.
  intros Hro. unfold sbi_fifo_inplace_update.
  destruct fifo as [f|], in_ as [c|]; try reflexivity.
  destruct (__sbi_fifo_is_empty f); [reflexivity|].
  now apply update_loop_readonly.
Qed.

Lemma le_split_length (n : nat) (v : Z) : length (le_split n v) = n.
Proof.
  revert v. induction n as [|n IH]; intros v; cbn [le_split length];
    [reflexivity|now rewrite IH].
Qed.

(** What [__sbi_fifo_enqueue] writes, whatever the data: at most
    entry_size bytes at the offset of the head slot. *)
Lemma enqueue_write (f : sbi_fifo) (data : mem) :
  0 <= entry_size f ->
  exists bs : mem,
    (length bs <= Z.to_nat (entry_size f))%nat /\
    queue (__sbi_fifo_enqueue f data) =
    list_inserts (Z.to_nat (u32 (enqueue_head f * entry_size f))) bs (queue f).
Proof.
  intros Hesz. unfold __sbi_fifo_enqueue. cbv zeta.
  cbn [set_avail set_queue queue]. unfold store, sbi_memcpy.
  destruct (Z.eqb_spec (entry_size f) 1) as [E|_];
    [eexists; split; [|reflexivity]; rewrite le_split_length, E; cbn; lia|].
  destruct (Z.eqb_spec (entry_size f) 2) as [E|_];
    [eexists; split; [|reflexivity]; rewrite le_split_length, E; cbn; lia|].
  destruct (Z.eqb_spec (entry_size f) 4) as [E|_];
    [eexists; split; [|reflexivity]; rewrite le_split_length, E; cbn; lia|].
  destruct (Z.eqb_spec (entry_size f) 8) as [E|_];
    [destruct (32 <? xlen_bits xl); cbn [andb];
     [eexists; split; [|reflexivity]; rewrite le_split_length, E; cbn; lia|]|];
    (eexists; split; [|reflexivity]; rewrite length_take; lia).
Qed.

(** X7: no call writes outside the num_entries * entry_size bytes of the
    slots: from a reachable state an enqueue of any data, a dequeue, a
    reset, a query, and an in-place update whose callback changes no more
    than the entry_size bytes of the entry it is handed (which is how a
    callback is modelled here) leave the size of the region and the bytes
    after the slots as they were, and leave the capacity and the entry
    width alone.  So the slot an enqueue writes and every entry handed to a
    callback lie within the slots. *)
Theorem writes_stay_in_slots (f f' : sbi_fifo) (c : call) :
  reachable f ->
  snd (do_call c (Some f)) = Some f' ->
  length (queue f') = length (queue f) /\
  drop (Z.to_nat (num_entries f * entry_size f)) (queue f') =
  drop (Z.to_nat (num_entries f * entry_size f)) (queue f) /\
  num_entries f' = num_entries f /\ entry_size f' = entry_size f.
Proof.
  intros Hreach. pose proof (reachable_sane f Hreach) as Hsane.
  pose proof Hsane as [Hgeo Ha Ht]. pose proof Hgeo as [Hc He Hq].
  unfold is_u16 in Hc, He.
  destruct c as [data|data| |in_ fptr| | |]; cbn [do_call].
  - (* Enqueue *)
    unfold sbi_fifo_enqueue, __sbi_fifo_is_full.
    destruct data as [d|]; [|cbn; intros [= <-]; auto].
    destruct (Z.eqb_spec (avail f) (num_entries f)) as [Hfull|Hroom];
      [cbn; intros [= <-]; auto|].
    cbn [snd]. intros [= <-].
    assert (Hinv : fifo_invariant f)
      by (apply reachable_room_invariant; [exact Hreach|right; lia]).
    destruct (enqueue_write f d) as (bs & Hbs & Hw); [lia|].
    destruct (enqueue_fields f d) as (q & Hlen & Hf).
    assert (Hn : num_entries (__sbi_fifo_enqueue f d) = num_entries f)
      by now rewrite Hf.
    assert (Hz : entry_size (__sbi_fifo_enqueue f d) = entry_size f)
      by now rewrite Hf.
    rewrite Hn, Hz, Hw, length_inserts.
    split; [reflexivity|]. split; [|split; reflexivity].
    apply drop_inserts.
    rewrite enqueue_head_mod by (try exact Hinv; lia).
    pose proof (head_in_range f Hinv) as Hh.
    rewrite (slot_offset_u32 f _ Hgeo Hh).
    pose proof (slot_in_capacity f _ Hgeo Hh). lia.
  - (* Dequeue *)
    destruct data as [d|]; [|cbn; intros [= <-]; auto].
    destruct (Z.eq_dec (avail f) 0) as [Hempty|Hne].
    + unfold sbi_fifo_dequeue, __sbi_fifo_is_empty.
      rewrite Hempty. cbn. intros [= <-]. auto.
    + assert (Hinv : fifo_invariant f)
        by (apply reachable_room_invariant; auto).
      rewrite (dequeue_ok f d Hinv Hne). cbn. intros [= <-]. cbn. auto.
  - (* Reset *)
    cbn. intros [= <-]. unfold __sbi_fifo_reset, sbi_memset.
    cbn [set_queue set_avail set_tail queue num_entries entry_size].
    rewrite (size_t_small (num_entries f)) by lia.
    rewrite size_t_small by nia.
    rewrite length_inserts. repeat split.
    apply drop_inserts. rewrite length_replicate. lia.
  - (* InPlaceUpdate *)
    unfold sbi_fifo_inplace_update, __sbi_fifo_is_empty.
    destruct in_ as [c|]; [|cbn; intros [= <-]; auto].
    destruct (Z.eqb_spec (avail f) 0) as [Hempty|Hne];
      [cbn; intros [= <-]; auto|].
    assert (Hinv : fifo_invariant f)
      by (apply reachable_room_invariant; auto).
    destruct (update_loop_entries fptr (Z.to_nat (avail f)) 0 f c
                SBI_FIFO_UNCHANGED [] Hinv)
      as (f1 & c1 & Hf & _ & (H1 & H2 & _ & _ & H5) & _ & _ & Hdrop); [lia|].
    change (Z.of_nat 0) with 0 in *. cbn [snd]. rewrite Hf. intros [= <-].
    auto.
  - cbn. intros [= <-]. auto.
  - cbn. intros [= <-]. auto.
  - cbn. intros [= <-]. auto.
Qed.

(** X11: what an in-place update does to the entries is what the caller
    gets back: after [sbi_fifo_inplace_update] on a reachable queue, as many
    dequeues as the queue holds entries all return 0 and hand out, in
    order, the entries as the scan left them. *)
Theorem updated_entries_are_dequeued (f : sbi_fifo) (c : ctx)
    (fptr : callback) (d : mem) :
  reachable f ->
  fst (run (InPlaceUpdate (Some c) fptr ::
            replicate (Z.to_nat (avail f)) (Dequeue (Some d))) (Some f)) =
  RUpdate (upd_ret (sbi_fifo_inplace_update (Some f) (Some c) fptr))
    (upd_in (sbi_fifo_inplace_update (Some f) (Some c) fptr))
    (upd_calls (sbi_fifo_inplace_update (Some f) (Some c) fptr)) ::
  map (fun e => RData 0 (Some (list_inserts 0 e d)))
    (snd (scan_entries fptr (Z.to_nat (entry_size f)) (contents f) c
            SBI_FIFO_UNCHANGED)).
Proof.
  intros Hreach.
  destruct (Z.eq_dec (avail f) 0) as [Hempty|Hne].
  - unfold sbi_fifo_inplace_update, __sbi_fifo_is_empty.
    cbn [run do_call]. unfold sbi_fifo_inplace_update, __sbi_fifo_is_empty.
    rewrite Hempty, contents_empty by exact Hempty. reflexivity.
  - assert (Hinv : fifo_invariant f)
      by (apply reachable_room_invariant; auto).
    destruct (inplace_update_nonempty f c fptr Hinv Hne)
      as (f' & c' & Hf & _ & Hscan & Ha & Ht & Hn & He & _).
    rewrite Hscan. cbn [snd run do_call]. rewrite Hf.
    assert (Hinv' : fifo_invariant f').
    { apply reachable_room_invariant; [|left; lia].
      apply (reach_call f f' (InPlaceUpdate (Some c) fptr) Hreach).
      cbn [do_call snd]. exact Hf. }
    destruct (run_dequeues d (Z.to_nat (avail f)) f' Hinv')
      as (g & Hrun & _); [now rewrite Ha|].
    now rewrite Hrun.
Qed.

End Fifo.

(** * Concrete runs *)

(** Sample values for the constants of the two headers and a 64-bit target;
    the context of the callbacks below is a counter. *)
Definition einval : Z := -3.
Definition enospc : Z := -11.
Definition enoent : Z := -15.
Definition fifo_skip : Z := 0.
Definition fifo_updated : Z := 1.
Definition fifo_unchanged : Z := 2.

Definition reachable64 : sbi_fifo -> Prop :=
  reachable RV64 einval enospc enoent fifo_skip fifo_updated fifo_unchanged
    nat.

Definition do_call64 : call nat -> option sbi_fifo ->
    outcome nat * option sbi_fifo :=
  do_call RV64 einval enospc enoent fifo_skip fifo_updated fifo_unchanged nat.

Definition run64 : list (call nat) -> option sbi_fifo ->
    list (outcome nat) * option sbi_fifo :=
  run RV64 einval enospc enoent fifo_skip fifo_updated fifo_unchanged nat.

Definition inplace_update64 : option sbi_fifo -> option nat ->
    callback nat -> update_result nat :=
  sbi_fifo_inplace_update fifo_skip fifo_updated fifo_unchanged nat.

(** A queue of four 4-byte entries, fresh and after the entries 1, 2 and 3
    went in. *)
Definition fresh4 : sbi_fifo := sbi_fifo_init RV64 (replicate 16 x00) 4 4.

Definition three4 : sbi_fifo :=
  mk_fifo (entry4 1 ++ entry4 2 ++ entry4 3 ++ replicate 4 x00) 4 4 3 0.

(** A queue of capacity zero, on an empty region. *)
Definition fresh0 : sbi_fifo := sbi_fifo_init RV64 [] 0 4.

(** Callbacks: one that counts its calls and returns 7, which is none of
    the three results of sbi_fifo.h, and one that counts its calls, zeroes
    the second slot it sees and returns [fifo_updated] there. *)
Definition count_and_return_7 : callback nat :=
  fun (c : nat) (e : mem) => (7, S c, e).

Definition update_second : callback nat :=
  fun (c : nat) (e : mem) =>
    match c with
    | 1%nat => (fifo_updated, S c, entry4 0)
    | _ => (fifo_unchanged, S c, e)
    end.


Lemma fresh4_reachable : reachable64 fresh4.
Proof.
  apply reach_init; unfold is_u16; cbn; lia.
Qed.

Lemma three4_reachable : reachable64 three4.
Proof.
  apply (reachable_run _ _ _ _ _ _ _ _ [enq nat 1; enq nat 2; enq nat 3]
           fresh4 three4 fresh4_reachable).
  vm_compute. reflexivity.
Qed.

(** The scenario of the specification on the update: the callback returns
    [fifo_updated] on the second of three occupied slots; the scan stops
    there, the third slot is not visited, and the counter stands at 2. *)
Example update_second_stops :
  inplace_update64 (Some three4) (Some 0%nat) update_second =
  mk_update nat fifo_updated
    (Some (mk_fifo (entry4 1 ++ entry4 0 ++ entry4 3 ++ replicate 4 x00)
             4 4 3 0))
    (Some 2%nat) [(0, fifo_unchanged); (1, fifo_updated)].
Proof. vm_compute. reflexivity. Qed.

(** ** The theorems at concrete inputs *)

Lemma queue_invariant_witness :
  reachable64 three4 /\ 0 < num_entries three4 /\
  (* the whole conclusion on the queue that holds 1, 2 and 3 *)
  (fifo_invariant three4 /\
   List.NoDup (occupied three4) /\
   length (occupied three4) = Z.to_nat (avail three4) /\
   (forall i : Z, In i (occupied three4) -> 0 <= i < num_entries three4) /\
   (forall data : mem,
      avail three4 < num_entries three4 ->
      (Z.to_nat (entry_size three4) <= length data)%nat ->
      exists f' : sbi_fifo,
        sbi_fifo_enqueue RV64 einval enospc (Some three4) (Some data) =
          (0, Some f') /\
        slot f' ((tail three4 + avail three4) mod num_entries three4) =
          take (Z.to_nat (entry_size three4)) data /\
        (forall j : Z,
           0 <= j < num_entries three4 ->
           j <> (tail three4 + avail three4) mod num_entries three4 ->
           slot f' j = slot three4 j) /\
        occupied f' =
          occupied three4 ++
          [(tail three4 + avail three4) mod num_entries three4]) /\
   (forall d : mem,
      avail three4 <> 0 ->
      exists f' : sbi_fifo,
        sbi_fifo_dequeue RV64 einval enoent (Some three4) (Some d) =
          (0, Some f', Some (list_inserts 0 (slot three4 (tail three4)) d)) /\
        occupied three4 = tail three4 :: occupied f' /\
        tail f' = (tail three4 + 1) mod num_entries three4 /\
        avail f' = avail three4 - 1 /\
        (forall j : Z, slot f' j = slot three4 j)) /\
   (exists f' : sbi_fifo,
      sbi_fifo_reset RV64 (Some three4) = (true, Some f') /\
      occupied f' = []) /\
   (forall (c : nat) (fptr : callback nat),
      exists f' : sbi_fifo,
        upd_fifo nat (inplace_update64 (Some three4) (Some c) fptr) = Some f'
        /\ occupied f' = occupied three4) /\
   (forall c : call nat,
      exists f' : sbi_fifo,
        snd (do_call64 c (Some three4)) = Some f' /\ fifo_invariant f') /\
   (forall (queue_mem : mem) (entries esz : Z),
      is_u16 entries -> is_u16 esz ->
      entries * esz <= Z.of_nat (length queue_mem) -> 0 < entries ->
      fifo_invariant (sbi_fifo_init RV64 queue_mem entries esz))) /\
  (* the enqueue of 4: it goes to slot 3, which joins the run 0, 1, 2 *)
  (avail three4 < num_entries three4 /\
   (Z.to_nat (entry_size three4) <= length (entry4 4))%nat /\
   occupied three4 = [0; 1; 2] /\
   (tail three4 + avail three4) mod num_entries three4 = 3 /\
   exists f' : sbi_fifo,
     sbi_fifo_enqueue RV64 einval enospc (Some three4) (Some (entry4 4)) =
       (0, Some f') /\
     slot f' ((tail three4 + avail three4) mod num_entries three4) =
       take (Z.to_nat (entry_size three4)) (entry4 4) /\
     (forall j : Z,
        0 <= j < num_entries three4 ->
        j <> (tail three4 + avail three4) mod num_entries three4 ->
        slot f' j = slot three4 j) /\
     occupied f' =
       occupied three4 ++
       [(tail three4 + avail three4) mod num_entries three4]) /\
  (* the dequeue: it hands out slot 0 and leaves the run 1, 2 *)
  (avail three4 <> 0 /\
   exists f' : sbi_fifo,
     sbi_fifo_dequeue RV64 einval enoent (Some three4) (Some out4) =
       (0, Some f', Some (list_inserts 0 (slot three4 (tail three4)) out4)) /\
     occupied three4 = tail three4 :: occupied f' /\
     tail f' = (tail three4 + 1) mod num_entries three4 /\
     avail f' = avail three4 - 1 /\
     (forall j : Z, slot f' j = slot three4 j)).
Proof.
  assert (Hpos : 0 < num_entries three4) by (vm_compute; reflexivity).
  assert (Hroom : avail three4 < num_entries three4)
    by (vm_compute; reflexivity).
  assert (Hlen : (Z.to_nat (entry_size three4) <= length (entry4 4))%nat)
    by (vm_compute; lia).
  assert (Hne : avail three4 <> 0) by (vm_compute; discriminate).
  pose proof (queue_invariant_preserved RV64 einval enospc enoent fifo_skip
                fifo_updated fifo_unchanged nat three4 three4_reachable Hpos)
    as Hall.
  split; [exact three4_reachable|]. split; [exact Hpos|].
  split; [exact Hall|].
  destruct Hall as (_ & _ & _ & _ & Henq & Hdeq & _).
  split.
  - split; [exact Hroom|]. split; [exact Hlen|].
    split; [vm_compute; reflexivity|]. split; [vm_compute; reflexivity|].
    exact (Henq (entry4 4) Hroom Hlen).
  - split; [exact Hne|]. exact (Hdeq out4 Hne).
Defined.

Lemma fifo_order_witness :
  reachable64 three4 /\
  Forall (fun e : mem => (Z.to_nat (entry_size three4) <= length e)%nat)
    [entry4 4] /\
  avail three4 + Z.of_nat (length [entry4 4]) <= num_entries three4 /\
  exists f' : sbi_fifo,
    run64
      (map (fun e => Enqueue nat (Some e)) [entry4 4] ++
       replicate (Z.to_nat (avail three4) + length [entry4 4])
         (Dequeue nat (Some out4)))
      (Some three4) =
    (map (fun _ => RInt nat 0) [entry4 4] ++
     map (fun e => RData nat 0 (Some (list_inserts 0 e out4)))
       (contents three4 ++ map (take (Z.to_nat (entry_size three4))) [entry4 4]),
     Some f') /\
    avail f' = 0.
Proof.
  assert (Hes : Forall
            (fun e : mem => (Z.to_nat (entry_size three4) <= length e)%nat)
            [entry4 4]) by (repeat constructor).
  assert (Hroom : avail three4 + Z.of_nat (length [entry4 4])
                  <= num_entries three4) by (vm_compute; discriminate).
  split; [exact three4_reachable|]. split; [exact Hes|]. split; [exact Hroom|].
  exact (proj1 (fifo_order RV64 einval enospc enoent fifo_skip fifo_updated
                  fifo_unchanged nat three4 [entry4 4] out4 three4_reachable
                  Hes Hroom)).
Defined.

Lemma error_atomicity_witness :
  avail (mk_fifo (entry4 5) 1 4 1 0) = num_entries (mk_fifo (entry4 5) 1 4 1 0)
  /\
  sbi_fifo_enqueue RV64 einval enospc (Some (mk_fifo (entry4 5) 1 4 1 0))
    (Some (entry4 6)) = (enospc, Some (mk_fifo (entry4 5) 1 4 1 0)) /\
  avail fresh4 = 0 /\
  sbi_fifo_dequeue RV64 einval enoent (Some fresh4) (Some out4) =
    (enoent, Some fresh4, Some out4).
Proof.
  split; [reflexivity|]. split.
  - apply (proj1 (error_atomicity RV64 einval enospc enoent
                    (mk_fifo (entry4 5) 1 4 1 0) (entry4 6))).
    reflexivity.
  - split; [reflexivity|].
    apply (proj2 (error_atomicity RV64 einval enospc enoent fresh4 out4)).
    reflexivity.
Defined.

Lemma reset_postcondition_witness :
  reachable64 three4 /\
  exists f' : sbi_fifo,
    sbi_fifo_reset RV64 (Some three4) = (true, Some f') /\
    avail f' = 0 /\ tail f' = 0 /\
    num_entries f' = num_entries three4 /\
    entry_size f' = entry_size three4 /\
    length (queue f') = length (queue three4) /\
    take (Z.to_nat (num_entries three4 * entry_size three4)) (queue f') =
      replicate (Z.to_nat (num_entries three4 * entry_size three4)) x00.
Proof.
  split; [exact three4_reachable|].
  exact (proj1 (reset_postcondition RV64 einval enospc enoent fifo_skip
                  fifo_updated fifo_unchanged nat three4 three4_reachable)).
Defined.


Lemma copy_strategy_witness :
  (Z.to_nat (entry_size three4) <= length (entry4 9))%nat /\
  queue (__sbi_fifo_enqueue RV64 three4 (entry4 9)) =
    sbi_memcpy (queue three4)
      (Z.to_nat (u32 (enqueue_head three4 * entry_size three4)))
      (entry4 9) 0 (Z.to_nat (entry_size three4)) /\
  avail three4 <> 0 /\
  (Z.to_nat (u32 (u32 (tail three4) * entry_size three4)) +
   Z.to_nat (entry_size three4) <= length (queue three4))%nat /\
  snd (sbi_fifo_dequeue RV64 einval enoent (Some three4) (Some (entry4 9))) =
    Some (sbi_memcpy (entry4 9) 0 (queue three4)
            (Z.to_nat (u32 (u32 (tail three4) * entry_size three4)))
            (Z.to_nat (entry_size three4))).
Proof.
  assert (H1 : (Z.to_nat (entry_size three4) <= length (entry4 9))%nat)
    by (vm_compute; lia).
  assert (H2 : avail three4 <> 0) by (vm_compute; discriminate).
  assert (H3 : (Z.to_nat (u32 (u32 (tail three4) * entry_size three4)) +
                Z.to_nat (entry_size three4) <= length (queue three4))%nat)
    by (vm_compute; lia).
  split; [exact H1|]. split.
  - exact (proj1 (copy_strategy_equivalence RV64 einval enoent three4
                    (entry4 9)) H1).
  - split; [exact H2|]. split; [exact H3|].
    exact (proj1 (proj2 (copy_strategy_equivalence RV64 einval enoent three4
                           (entry4 9))) H2 H3).
Defined.


Lemma dequeue_frame_witness :
  reachable64 three4 /\ avail three4 <> 0 /\
  exists f' : sbi_fifo,
    sbi_fifo_dequeue RV64 einval enoent (Some three4) (Some out4) =
      (0, Some f', Some (list_inserts 0 (slot three4 (tail three4)) out4)) /\
    queue f' = queue three4 /\
    avail f' = avail three4 - 1 /\
    tail f' = (tail three4 + 1) mod num_entries three4 /\
    num_entries f' = num_entries three4 /\
    entry_size f' = entry_size three4 /\
    length (slot three4 (tail three4)) = Z.to_nat (entry_size three4) /\
    slot f' (tail three4) = slot three4 (tail three4).
Proof.
  assert (H1 : avail three4 <> 0) by (vm_compute; discriminate).
  split; [exact three4_reachable|]. split; [exact H1|].
  exact (dequeue_frame RV64 einval enospc enoent fifo_skip fifo_updated
           fifo_unchanged nat three4 out4 three4_reachable H1).
Defined.

(** ** Where the specification and the code part *)

(** C1 as stated fails for a queue of capacity zero: after
    [sbi_fifo_init] its tail is 0, which is not below the capacity. *)
Lemma invariant_fails_at_capacity_zero :
  reachable64 fresh0 /\ ~ (0 <= tail fresh0 < num_entries fresh0) /\
  ~ fifo_invariant fresh0.
Proof.
  split; [apply reach_init; unfold is_u16; cbn; lia|].
  split; [vm_compute; intros [_ H]; discriminate H|].
  intros [_ _ [_ H]]. vm_compute in H. discriminate H.
Qed.

(** C2 as stated fails on its scenario: the last four dequeues return 2, 3,
    4 and 5, not 2, 4, 5 and a failure. *)
Lemma scenario_as_written_fails :
  fst (run64 (scenario_calls nat) (scenario_queue RV64)) <>
  scenario_as_written enospc enoent nat.
Proof. vm_compute. intros H. discriminate H. Qed.

(** An fptr outside its contract, one that returns a value that is none
    of the three results: the scan visits every occupied slot without a skip
    or an update, and the call returns that value, 7, not
    [fifo_unchanged]. *)
Lemma exhausted_scan_not_unchanged :
  reachable64 three4 /\
  map snd (upd_calls nat (inplace_update64 (Some three4) (Some 0%nat)
                            count_and_return_7)) = [7; 7; 7] /\
  map fst (upd_calls nat (inplace_update64 (Some three4) (Some 0%nat)
                            count_and_return_7)) = occupied three4 /\
  upd_ret nat (inplace_update64 (Some three4) (Some 0%nat) count_and_return_7)
    <> fifo_unchanged.
Proof.
  split; [exact three4_reachable|]. split; [vm_compute; reflexivity|].
  split; [vm_compute; reflexivity|]. vm_compute. intros H. discriminate H.
Qed.

(** ** The further properties at concrete inputs *)

(** The queue of four entries when full, and a region of 20 bytes that
    holds stale data. *)
Definition four4 : sbi_fifo :=
  mk_fifo (entry4 1 ++ entry4 2 ++ entry4 3 ++ entry4 4) 4 4 4 0.

Definition stale20 : mem := replicate 20 xff.

(** A sequence with failing calls and a reset in it: a dequeue on the
    empty queue, five enqueues of which the fifth finds the queue full, a
    dequeue, a reset, then three enqueues and a dequeue. *)
Definition busy_calls : list (call nat) :=
  [deq nat; enq nat 1; enq nat 2; enq nat 3; enq nat 4; enq nat 5; deq nat;
   Available nat; Reset nat; enq nat 6; enq nat 7; Dequeue nat None;
   enq nat 8; deq nat].

(** The queue of four entries on the region of 20 bytes: with the entries
    1, 2 and 3, with 4 enqueued after them, and with the second entry
    zeroed in place. *)
Definition three20 : sbi_fifo :=
  mk_fifo (entry4 1 ++ entry4 2 ++ entry4 3 ++ replicate 4 x00 ++
           replicate 4 xff) 4 4 3 0.

Definition four20 : sbi_fifo :=
  mk_fifo (entry4 1 ++ entry4 2 ++ entry4 3 ++ entry4 4 ++ replicate 4 xff)
    4 4 4 0.

Definition updated20 : sbi_fifo :=
  mk_fifo (entry4 1 ++ entry4 0 ++ entry4 3 ++ replicate 4 x00 ++
           replicate 4 xff) 4 4 3 0.

Lemma three20_reachable : reachable64 three20.
Proof.
  apply (reachable_run _ _ _ _ _ _ _ _ [enq nat 1; enq nat 2; enq nat 3]
           (sbi_fifo_init RV64 stale20 4 4) three20).
  - apply reach_init; unfold is_u16; cbn; lia.
  - vm_compute. reflexivity.
Qed.

Lemma four4_reachable : reachable64 four4.
Proof.
  apply (reachable_run _ _ _ _ _ _ _ _ [enq nat 4] three4 four4
           three4_reachable).
  vm_compute. reflexivity.
Qed.

Lemma fresh0_reachable : reachable64 fresh0.
Proof.
  apply reach_init; unfold is_u16; cbn; lia.
Qed.

Lemma init_postcondition_witness :
  is_u16 4 /\ is_u16 4 /\ 4 * 4 <= Z.of_nat (length stale20) /\
  take (Z.to_nat (4 * 4)) (queue (sbi_fifo_init RV64 stale20 4 4)) =
    replicate (Z.to_nat (4 * 4)) x00 /\
  drop (Z.to_nat (4 * 4)) (queue (sbi_fifo_init RV64 stale20 4 4)) =
    drop (Z.to_nat (4 * 4)) stale20.
Proof.
  assert (H1 : is_u16 4) by (unfold is_u16; lia).
  assert (H2 : 4 * 4 <= Z.of_nat (length stale20)) by (vm_compute; discriminate).
  pose proof (init_postcondition RV64 einval stale20 4 4 H1 H1 H2)
    as (_ & _ & _ & _ & _ & Hz & Hd & _).
  repeat split; try lia; assumption.
Defined.

Lemma avail_counts_witness :
  einval <> 0 /\ enospc <> 0 /\ enoent <> 0 /\ reachable64 fresh4 /\
  (sbi_fifo_avail (snd (run64 busy_calls (Some fresh4))) =
     count_run nat (sbi_fifo_avail (Some fresh4)) busy_calls
       (fst (run64 busy_calls (Some fresh4))) /\
   0 <= count_run nat (sbi_fifo_avail (Some fresh4)) busy_calls
          (fst (run64 busy_calls (Some fresh4)))
     <= num_entries fresh4) /\
  count_run nat (sbi_fifo_avail (Some fresh4)) busy_calls
    (fst (run64 busy_calls (Some fresh4))) = 2.
Proof.
  assert (H1 : einval <> 0) by discriminate.
  assert (H2 : enospc <> 0) by discriminate.
  assert (H3 : enoent <> 0) by discriminate.
  split; [exact H1|]. split; [exact H2|]. split; [exact H3|].
  split; [exact fresh4_reachable|].
  split; [|vm_compute; reflexivity].
  exact (avail_counts_successes RV64 einval enospc enoent fifo_skip
           fifo_updated fifo_unchanged nat fresh4 busy_calls H1 H2 H3
           fresh4_reachable).
Defined.

Lemma enqueue_step_witness :
  (reachable64 three4 /\
   (Z.to_nat (entry_size three4) <= length (entry4 4))%nat /\
   Z.of_nat (length (contents three4)) < num_entries three4 /\
   exists f' : sbi_fifo,
     sbi_fifo_enqueue RV64 einval enospc (Some three4) (Some (entry4 4)) =
       (0, Some f') /\
     contents f' =
       contents three4 ++ [take (Z.to_nat (entry_size three4)) (entry4 4)] /\
     tail f' = tail three4 /\ num_entries f' = num_entries three4 /\
     entry_size f' = entry_size three4) /\
  (reachable64 four4 /\
   (Z.to_nat (entry_size four4) <= length (entry4 5))%nat /\
   Z.of_nat (length (contents four4)) = num_entries four4 /\
   sbi_fifo_enqueue RV64 einval enospc (Some four4) (Some (entry4 5)) =
     (enospc, Some four4)).
Proof.
  assert (H1 : (Z.to_nat (entry_size three4) <= length (entry4 4))%nat)
    by (vm_compute; lia).
  assert (H2 : Z.of_nat (length (contents three4)) < num_entries three4)
    by (vm_compute; reflexivity).
  assert (H3 : (Z.to_nat (entry_size four4) <= length (entry4 5))%nat)
    by (vm_compute; lia).
  assert (H4 : Z.of_nat (length (contents four4)) = num_entries four4)
    by (vm_compute; reflexivity).
  split.
  - split; [exact three4_reachable|]. split; [exact H1|]. split; [exact H2|].
    exact (proj1 (enqueue_step RV64 einval enospc enoent fifo_skip
                    fifo_updated fifo_unchanged nat three4 (entry4 4)
                    three4_reachable H1) H2).
  - split; [exact four4_reachable|]. split; [exact H3|]. split; [exact H4|].
    exact (proj2 (enqueue_step RV64 einval enospc enoent fifo_skip
                    fifo_updated fifo_unchanged nat four4 (entry4 5)
                    four4_reachable H3) H4).
Defined.

Lemma dequeue_step_witness :
  (reachable64 fresh4 /\ contents fresh4 = [] /\
   sbi_fifo_dequeue RV64 einval enoent (Some fresh4) (Some out4) =
     (enoent, Some fresh4, Some out4)) /\
  (reachable64 three4 /\
   contents three4 = entry4 1 :: [entry4 2; entry4 3] /\
   exists (f' : sbi_fifo) (d' : mem),
     sbi_fifo_dequeue RV64 einval enoent (Some three4) (Some out4) =
       (0, Some f', Some d') /\
     contents f' = [entry4 2; entry4 3] /\
     length d' = length out4 /\
     drop (Z.to_nat (entry_size three4)) d' =
       drop (Z.to_nat (entry_size three4)) out4 /\
     ((Z.to_nat (entry_size three4) <= length out4)%nat ->
      take (Z.to_nat (entry_size three4)) d' = entry4 1)).
Proof.
  assert (H1 : contents fresh4 = []) by (vm_compute; reflexivity).
  assert (H2 : contents three4 = entry4 1 :: [entry4 2; entry4 3])
    by (vm_compute; reflexivity).
  split.
  - split; [exact fresh4_reachable|]. split; [exact H1|].
    exact (proj1 (dequeue_step RV64 einval enospc enoent fifo_skip
                    fifo_updated fifo_unchanged nat fresh4 out4
                    fresh4_reachable) H1).
  - split; [exact three4_reachable|]. split; [exact H2|].
    exact (proj2 (dequeue_step RV64 einval enospc enoent fifo_skip
                    fifo_updated fifo_unchanged nat three4 out4
                    three4_reachable) (entry4 1) [entry4 2; entry4 3] H2).
Defined.

Lemma enqueue_dequeue_commute_witness :
  reachable64 three4 /\ avail three4 <> 0 /\
  avail three4 <> num_entries three4 /\
  (Z.to_nat (entry_size three4) <= length (entry4 4))%nat /\
  exists (g : sbi_fifo) (out : mem),
    run64 [Enqueue nat (Some (entry4 4)); Dequeue nat (Some out4)]
      (Some three4) = ([RInt nat 0; RData nat 0 (Some out)], Some g) /\
    run64 [Dequeue nat (Some out4); Enqueue nat (Some (entry4 4))]
      (Some three4) = ([RData nat 0 (Some out); RInt nat 0], Some g).
Proof.
  assert (H1 : avail three4 <> 0) by (vm_compute; discriminate).
  assert (H2 : avail three4 <> num_entries three4)
    by (vm_compute; discriminate).
  assert (H3 : (Z.to_nat (entry_size three4) <= length (entry4 4))%nat)
    by (vm_compute; lia).
  split; [exact three4_reachable|]. split; [exact H1|]. split; [exact H2|].
  split; [exact H3|].
  exact (enqueue_dequeue_commute RV64 einval enospc enoent fifo_skip
           fifo_updated fifo_unchanged nat three4 (entry4 4) out4
           three4_reachable H1 H2 H3).
Defined.

Lemma writes_stay_in_slots_witness :
  (* an enqueue into the last slot, next to the bytes after the slots *)
  (reachable64 three20 /\
   snd (do_call64 (enq nat 4) (Some three20)) = Some four20 /\
   (length (queue four20) = length (queue three20) /\
    drop (Z.to_nat (num_entries three20 * entry_size three20)) (queue four20)
    = drop (Z.to_nat (num_entries three20 * entry_size three20))
        (queue three20) /\
    num_entries four20 = num_entries three20 /\
    entry_size four20 = entry_size three20) /\
   drop (Z.to_nat (num_entries three20 * entry_size three20)) (queue three20)
   = replicate 4 xff) /\
  (* an in-place update that rewrites the second entry *)
  (snd (do_call64 (InPlaceUpdate nat (Some 0%nat) update_second)
          (Some three20)) = Some updated20 /\
   length (queue updated20) = length (queue three20) /\
   drop (Z.to_nat (num_entries three20 * entry_size three20))
     (queue updated20)
   = drop (Z.to_nat (num_entries three20 * entry_size three20))
       (queue three20) /\
   num_entries updated20 = num_entries three20 /\
   entry_size updated20 = entry_size three20).
Proof.
  assert (H1 : snd (do_call64 (enq nat 4) (Some three20)) = Some four20)
    by (vm_compute; reflexivity).
  assert (H2 : snd (do_call64 (InPlaceUpdate nat (Some 0%nat) update_second)
                      (Some three20)) = Some updated20)
    by (vm_compute; reflexivity).
  split.
  - split; [exact three20_reachable|]. split; [exact H1|].
    split; [|vm_compute; reflexivity].
    exact (writes_stay_in_slots RV64 einval enospc enoent fifo_skip
             fifo_updated fifo_unchanged nat three20 four20 (enq nat 4)
             three20_reachable H1).
  - split; [exact H2|].
    exact (writes_stay_in_slots RV64 einval enospc enoent fifo_skip
             fifo_updated fifo_unchanged nat three20 updated20
             (InPlaceUpdate nat (Some 0%nat) update_second)
             three20_reachable H2).
Defined.

Lemma inplace_update_on_contents_witness :
  reachable64 three4 /\
  exists (f' : sbi_fifo) (c' : nat),
    upd_fifo nat (inplace_update64 (Some three4) (Some 0%nat) update_second)
      = Some f' /\
    upd_in nat (inplace_update64 (Some three4) (Some 0%nat) update_second)
      = Some c' /\
    scan_entries fifo_skip fifo_updated nat update_second
      (Z.to_nat (entry_size three4)) (contents three4) 0%nat fifo_unchanged =
    (upd_ret nat (inplace_update64 (Some three4) (Some 0%nat) update_second),
     c', contents f') /\
    avail f' = avail three4 /\ tail f' = tail three4 /\
    num_entries f' = num_entries three4 /\
    entry_size f' = entry_size three4 /\
    (forall i : Z,
       0 <= i -> ~ In i (occupied three4) -> slot f' i = slot three4 i).
Proof.
  split; [exact three4_reachable|].
  exact (inplace_update_on_contents RV64 einval enospc enoent fifo_skip
           fifo_updated fifo_unchanged nat three4 0%nat update_second
           three4_reachable).
Defined.

Lemma inplace_update_readonly_witness :
  (forall (c : nat) (e : mem), snd (count_and_return_7 c e) = e) /\
  upd_fifo nat (inplace_update64 (Some three4) (Some 0%nat) count_and_return_7)
    = Some three4.
Proof.
  assert (H1 : forall (c : nat) (e : mem), snd (count_and_return_7 c e) = e)
    by reflexivity.
  split; [exact H1|].
  exact (inplace_update_readonly fifo_skip fifo_updated fifo_unchanged nat
           (Some three4) (Some 0%nat) count_and_return_7 H1).
Defined.

Lemma capacity_zero_witness :
  reachable64 fresh0 /\ num_entries fresh0 = 0 /\
  sbi_fifo_is_full einval (Some fresh0) = 1 /\
  sbi_fifo_is_empty einval (Some fresh0) = 1 /\
  (forall c : call nat, snd (do_call64 c (Some fresh0)) = Some fresh0).
Proof.
  assert (H1 : num_entries fresh0 = 0) by reflexivity.
  pose proof (capacity_zero_queue RV64 einval enospc enoent fifo_skip
                fifo_updated fifo_unchanged nat fresh0 fresh0_reachable H1)
    as (_ & Hfull & Hempty & _ & _ & _ & Hcall).
  split; [exact fresh0_reachable|]. split; [exact H1|].
  split; [exact Hfull|]. split; [exact Hempty|exact Hcall].
Defined.

Lemma updated_entries_witness :
  reachable64 three4 /\
  fst (run64 (InPlaceUpdate nat (Some 0%nat) update_second ::
              replicate (Z.to_nat (avail three4)) (Dequeue nat (Some out4)))
         (Some three4)) =
  RUpdate nat
    (upd_ret nat (inplace_update64 (Some three4) (Some 0%nat) update_second))
    (upd_in nat (inplace_update64 (Some three4) (Some 0%nat) update_second))
    (upd_calls nat (inplace_update64 (Some three4) (Some 0%nat) update_second))
  :: map (fun e => RData nat 0 (Some (list_inserts 0 e out4)))
       (snd (scan_entries fifo_skip fifo_updated nat update_second
               (Z.to_nat (entry_size three4)) (contents three4) 0%nat
               fifo_unchanged)).
Proof.
  split; [exact three4_reachable|].
  exact (updated_entries_are_dequeued RV64 einval enospc enoent fifo_skip
           fifo_updated fifo_unchanged nat three4 0%nat update_second out4
           three4_reachable).
Defined.

(** The update of the scenario above, seen by the dequeues that follow: the
    second entry comes back as the callback rewrote it. *)
Example updated_entry_comes_back :
  fst (run64 (InPlaceUpdate nat (Some 0%nat) update_second ::
              replicate 3 (Dequeue nat (Some out4))) (Some three4)) =
  [RUpdate nat fifo_updated (Some 2%nat)
     [(0, fifo_unchanged); (1, fifo_updated)];
   got nat 1; got nat 0; got nat 3].
Proof. vm_compute. reflexivity. Qed.
